(** * The Reflex realtime WebSocket server (class [ReflexRealtimeServer])

    A shallow embedding of the broadcast hub: the connection registry
    ([clients]), the two membership indexes ([rooms], [userSessions]), the
    message router ([handleMessage] and the handlers it dispatches to), the
    disconnect procedure ([handleDisconnection]) and the liveness monitor
    ([startHeartbeat], [cleanupInactiveClients]).

    JavaScript's [Map] and [Set] iterate in insertion order and tolerate
    deletions while a [forEach] is running, and the server relies on both:
    a failed write disconnects the receiver in the middle of a broadcast.
    Maps are therefore association lists in insertion order, sets are lists
    without repetition in insertion order, and [forEach] walks the keys it
    started with while skipping those that were deleted in the meantime. *)

From stdpp Require Import base list strings pretty.
From Stdlib Require Import ZArith Lia Ascii.

(** ** [Set<string>] *)

Module JsSet.
Definition has (x : string) (s : list string) : bool := bool_decide (x ∈ s).
Definition add (x : string) (s : list string) : list string :=
  if has x s then s else s ++ [x].
Definition delete (x : string) (s : list string) : list string :=
  filter (λ y, y ≠ x) s.
Definition size (s : list string) : nat := length s.
End JsSet.

(** ** [Map<string, V>] *)

Module JsMap.
Section Ops.
Context {V : Type}.

Fixpoint get (k : string) (m : list (string * V)) : option V :=
  match m with
  | [] => None
  | (k', v) :: m' => if decide (k' = k) then Some v else get k m'
  end.

Definition has (k : string) (m : list (string * V)) : bool :=
  match get k m with Some _ => true | None => false end.

(** [set] on a key that is present replaces the value where it stands;
    a new key goes to the end. *)
Fixpoint set (k : string) (v : V) (m : list (string * V)) : list (string * V) :=
  match m with
  | [] => [(k, v)]
  | (k', v') :: m' =>
      if decide (k' = k) then (k, v) :: m' else (k', v') :: set k v m'
  end.

Definition delete (k : string) (m : list (string * V)) : list (string * V) :=
  filter (λ kv, kv.1 ≠ k) m.

Definition keys (m : list (string * V)) : list string := m.*1.

Definition size (m : list (string * V)) : nat := length m.
End Ops.
End JsMap.

(** ** Data model *)

(** [ws.readyState], and whether [ws.send] throws.  Both belong to the
    transport, not to the server: they are fixed while one callback runs and
    change only between callbacks. *)
Inductive ReadyState := CONNECTING | OPEN | CLOSING | CLOSED.

Record WebSocket := {
  readyState : ReadyState;
  sendThrows : bool
}.

Definition isOpen (w : WebSocket) : bool :=
  match readyState w with OPEN => true | _ => false end.

(** Application data carried through untouched ([any] in the source). *)
Definition Json := string.

Record ClientConnection := {
  id : string;
  ws : WebSocket;
  userId : option string;
  sessionId : string;
  connectedAt : Z;
  lastActivity : Z;
  subscriptions : list string
}.

Inductive MessageType :=
  STATE_SYNC | EVENT_BROADCAST | USER_JOIN | USER_LEAVE | HEARTBEAT | SUBSCRIBE | UNSUBSCRIBE.

(** The payloads the server builds for outbound messages. *)
Inductive OutPayload :=
| JoinPayload (clientId sessionId : string)
| StatePayload (stateUpdates : option Json)
| EventPayload (eventType : option string) (eventPayload : option Json) (sourceClientId : string)
| LeavePayload (clientId : string) (userId : option string)
| AlivePayload
| PingPayload.

(** An outbound [RealtimeMessage]; [timestamp] is the clock reading in
    milliseconds that [toISOString] renders. *)
Record RealtimeMessage := {
  type : MessageType;
  payload : OutPayload;
  timestamp : Z;
  clientId : option string
}.

(** The fields the handlers destructure out of an inbound [message.payload];
    [None] is a field that is missing. *)
Record Payload := {
  p_stateUpdates : option Json;
  p_targetUsers : option (list string);
  p_excludeSelf : option bool;
  p_eventType : option string;
  p_eventPayload : option Json;
  p_room : option string;
  p_subscriptions : option (list string);
  p_userId : option string;
  p_rooms : option (list string)
}.

(** An inbound message as [JSON.parse] returns it: the type tag is whatever
    string the client wrote, the payload may be missing or null. *)
Record InMessage := {
  in_type : option string;
  in_payload : option Payload
}.

(** What [JSON.parse(data.toString())] does with a frame. *)
Inductive Parsed :=
| ParseError
| ParsedNull
| ParsedMessage (m : InMessage).

Record Server := {
  clients : list (string * ClientConnection);
  rooms : list (string * list string);
  userSessions : list (string * list string);
  timers : list (nat * string);
  nextTimer : nat
}.

Definition newServer : Server :=
  {| clients := []; rooms := []; userSessions := []; timers := []; nextTimer := 0 |}.

(** What a callback does to the outside world, in order. *)
Inductive Effect :=
| WsSend (to : string) (m : RealtimeMessage)
| WsSendThrew (to : string) (m : RealtimeMessage)
| LogConnected (clientId : string) (total : nat)
| LogSubscribed (clientId : string)
| LogDisconnected (clientId : string) (total : nat)
| LogCleanup (clientId : string)
| WarnUnknownType (tag : option string)
| ErrorParse (clientId : string)
| ErrorSend (clientId : string)
| ErrorSocket (clientId : string).

(** ** Callbacks as state transformers

    A callback either completes or throws; it changes the server and leaves a
    trace of effects.  [None] is reserved for the recursion bound of
    [handleDisconnection_fuel] running out, which [handleDisconnection_total]
    shows never happens. *)

Inductive Completion := Normal | Thrown.

Definition Act : Type := Server → option (Completion * Server * list Effect).

Definition ret : Act := λ σ, Some (Normal, σ, []).
Definition throw : Act := λ σ, Some (Thrown, σ, []).
Definition emit (e : Effect) : Act := λ σ, Some (Normal, σ, [e]).
Definition modify (f : Server → Server) : Act := λ σ, Some (Normal, f σ, []).

Definition seq (a b : Act) : Act := λ σ,
  match a σ with
  | None => None
  | Some (Thrown, σ1, t1) => Some (Thrown, σ1, t1)
  | Some (Normal, σ1, t1) =>
      match b σ1 with
      | None => None
      | Some (c, σ2, t2) => Some (c, σ2, t1 ++ t2)
      end
  end.

Definition tryCatch (a handler : Act) : Act := λ σ,
  match a σ with
  | None => None
  | Some (Normal, σ1, t1) => Some (Normal, σ1, t1)
  | Some (Thrown, σ1, t1) =>
      match handler σ1 with
      | None => None
      | Some (c, σ2, t2) => Some (c, σ2, t1 ++ t2)
      end
  end.

Notation "a >>> b" := (seq a b) (at level 65, right associativity).

Fixpoint forEach {K : Type} (l : list K) (body : K → Act) : Act :=
  match l with
  | [] => ret
  | k :: l' => body k >>> forEach l' body
  end.

(** [Map.prototype.forEach] on a map of the server that the body may delete
    from: the entries present at the start are visited in order, one that
    has been deleted by the time its turn comes is skipped, and the value is
    read when the entry is visited. *)
Definition Map_forEach {V : Type} (sel : Server → list (string * V))
    (body : V → string → Act) : Act := λ σ,
  forEach (JsMap.keys (sel σ))
    (λ k σ', match JsMap.get k (sel σ') with
             | Some v => body v k σ'
             | None => ret σ'
             end) σ.

(** [Set.prototype.forEach], likewise. *)
Definition Set_forEach (sel : Server → list string) (body : string → Act) : Act := λ σ,
  forEach (sel σ)
    (λ x σ', if JsSet.has x (sel σ') then body x σ' else ret σ') σ.

(** [clientId !== excludeClientId] with an optional [excludeClientId]. *)
Definition differs (clientId : string) (excludeClientId : option string) : bool :=
  match excludeClientId with
  | Some e => negb (bool_decide (clientId = e))
  | None => true
  end.

(** JavaScript truthiness of an optional string: missing and [""] are falsy. *)
Definition truthy (s : option string) : bool :=
  match s with
  | Some x => negb (bool_decide (x = ""))
  | None => false
  end.

(** The member set a [rooms.get(roomId)] or [userSessions.get(userId)]
    refers to.  An entry is dropped from its map only when its set has just
    become empty, so the set object a caller still holds after the entry is
    gone is the empty set. *)
Definition membersOf (roomId : string) (σ : Server) : list string :=
  default [] (JsMap.get roomId (rooms σ)).

Definition connectionsOf (user : string) (σ : Server) : list string :=
  default [] (JsMap.get user (userSessions σ)).

(** ** Record updates *)

Definition setClients (f : list (string * ClientConnection) → list (string * ClientConnection))
    (σ : Server) : Server :=
  {| clients := f (clients σ); rooms := rooms σ; userSessions := userSessions σ;
     timers := timers σ; nextTimer := nextTimer σ |}.

Definition setRooms (f : list (string * list string) → list (string * list string))
    (σ : Server) : Server :=
  {| clients := clients σ; rooms := f (rooms σ); userSessions := userSessions σ;
     timers := timers σ; nextTimer := nextTimer σ |}.

Definition setUserSessions (f : list (string * list string) → list (string * list string))
    (σ : Server) : Server :=
  {| clients := clients σ; rooms := rooms σ; userSessions := f (userSessions σ);
     timers := timers σ; nextTimer := nextTimer σ |}.

(** A field assignment on the [client] object a handler got from
    [clients.get]: the entry changes where it stands. *)
Definition updateClient (clientId : string) (f : ClientConnection → ClientConnection)
    (cs : list (string * ClientConnection)) : list (string * ClientConnection) :=
  match JsMap.get clientId cs with
  | Some client => JsMap.set clientId (f client) cs
  | None => cs
  end.

Definition withUserId (u : string) (c : ClientConnection) : ClientConnection :=
  {| id := id c; ws := ws c; userId := Some u; sessionId := sessionId c;
     connectedAt := connectedAt c; lastActivity := lastActivity c;
     subscriptions := subscriptions c |}.

Definition withLastActivity (t : Z) (c : ClientConnection) : ClientConnection :=
  {| id := id c; ws := ws c; userId := userId c; sessionId := sessionId c;
     connectedAt := connectedAt c; lastActivity := t;
     subscriptions := subscriptions c |}.

Definition withSubscriptions (f : list string → list string) (c : ClientConnection) : ClientConnection :=
  {| id := id c; ws := ws c; userId := userId c; sessionId := sessionId c;
     connectedAt := connectedAt c; lastActivity := lastActivity c;
     subscriptions := f (subscriptions c) |}.

Definition withWs (w : WebSocket) (c : ClientConnection) : ClientConnection :=
  {| id := id c; ws := w; userId := userId c; sessionId := sessionId c;
     connectedAt := connectedAt c; lastActivity := lastActivity c;
     subscriptions := subscriptions c |}.

(** ** Membership index *)

(** [if (!m.has(key)) m.set(key, new Set()); m.get(key)!.add(clientId)] *)
Definition join (clientId key : string) (m : list (string * list string))
    : list (string * list string) :=
  let m1 := if JsMap.has key m then m else JsMap.set key [] m in
  match JsMap.get key m1 with
  | Some members => JsMap.set key (JsSet.add clientId members) m1
  | None => m1
  end.

(** [const s = m.get(key); if (s) { s.delete(clientId); if (s.size === 0) m.delete(key) }] *)
Definition leave (clientId key : string) (m : list (string * list string))
    : list (string * list string) :=
  match JsMap.get key m with
  | Some members =>
      let members' := JsSet.delete clientId members in
      if bool_decide (JsSet.size members' = 0%nat)
      then JsMap.delete key m
      else JsMap.set key members' m
  | None => m
  end.

(** [this.rooms.forEach((room, roomId) => { room.delete(clientId); if (room.size === 0) this.rooms.delete(roomId) })] *)
Definition leaveAllRooms (clientId : string) (rs : list (string * list string))
    : list (string * list string) :=
  fold_left (λ acc roomId, leave clientId roomId acc) (JsMap.keys rs) rs.

(** The bookkeeping of [handleDisconnection] before it announces the
    departure: the user-session set of the user the connection is bound to,
    every room, then the registry. *)
Definition purge (clientId : string) (client : ClientConnection) (σ : Server) : Server :=
  {| clients := JsMap.delete clientId (clients σ);
     rooms := leaveAllRooms clientId (rooms σ);
     userSessions :=
       match userId client with
       | Some u => if truthy (Some u) then leave clientId u (userSessions σ) else userSessions σ
       | None => userSessions σ
       end;
     timers := timers σ;
     nextTimer := nextTimer σ |}.

(** ** Identifiers *)

(** [`client_${Date.now()}_${Math.random().toString(36).substr(2, 9)}`];
    [rnd36] is the base-36 rendering [Math.random().toString(36)]. *)
Definition generateClientId (now : Z) (rnd36 : string) : string :=
  "client_" +:+ pretty now +:+ "_" +:+ String.substring 2 9 rnd36.

(** [url.searchParams.get("sessionId") || `session_${Date.now()}`] *)
Definition extractSessionId (now : Z) (param : option string) : string :=
  match param with
  | Some s => if truthy (Some s) then s else "session_" +:+ pretty now
  | None => "session_" +:+ pretty now
  end.

(** ** Delivery *)

Section Routing.
(** The disconnect procedure the failure path of a send calls back into. *)
Variable disconnect : string → Act.

Definition sendToClient_via (clientId : string) (message : RealtimeMessage) : Act := λ σ,
  match JsMap.get clientId (clients σ) with
  | None => ret σ
  | Some client =>
      if negb (isOpen (ws client)) then ret σ
      else if sendThrows (ws client)
      then (emit (WsSendThrew clientId message) >>>
            emit (ErrorSend clientId) >>>
            disconnect clientId) σ
      else emit (WsSend clientId message) σ
  end.

Definition broadcastToAll_via (message : RealtimeMessage)
    (excludeClientId : option string) : Act :=
  Map_forEach clients
    (λ _ clientId,
       if differs clientId excludeClientId
       then sendToClient_via clientId message else ret).

Definition broadcastToUser_via (user : string) (message : RealtimeMessage)
    (excludeClientId : option string) : Act := λ σ,
  match JsMap.get user (userSessions σ) with
  | None => ret σ
  | Some _ =>
      Set_forEach (connectionsOf user)
        (λ clientId,
           if differs clientId excludeClientId
           then sendToClient_via clientId message else ret) σ
  end.

Definition broadcastToRoom_via (roomId : string) (message : RealtimeMessage)
    (excludeClientId : option string) : Act := λ σ,
  match JsMap.get roomId (rooms σ) with
  | None => ret σ
  | Some _ =>
      Set_forEach (membersOf roomId)
        (λ clientId,
           if differs clientId excludeClientId
           then sendToClient_via clientId message else ret) σ
  end.
End Routing.

Definition leaveMessage (now : Z) (clientId : string) (client : ClientConnection)
    : RealtimeMessage :=
  {| type := USER_LEAVE;
     payload := LeavePayload clientId (userId client);
     timestamp := now;
     clientId := None |}.

(** [handleDisconnection] calls [broadcastToAll], whose sends call
    [handleDisconnection] again when a write fails.  Every call that gets
    past the registry lookup deletes a registry entry before it recurses, so
    the depth is bounded by the number of registered connections. *)
Fixpoint handleDisconnection_fuel (now : Z) (fuel : nat) (clientId : string) : Act := λ σ,
  match JsMap.get clientId (clients σ) with
  | None => ret σ
  | Some client =>
      match fuel with
      | O => None
      | S fuel' =>
          (modify (purge clientId client) >>>
           (λ σ', emit (LogDisconnected clientId (JsMap.size (clients σ'))) σ') >>>
           broadcastToAll_via (handleDisconnection_fuel now fuel')
             (leaveMessage now clientId client) (Some clientId)) σ
      end
  end.

Definition handleDisconnection (now : Z) (clientId : string) : Act := λ σ,
  handleDisconnection_fuel now (JsMap.size (clients σ)) clientId σ.

Definition sendToClient (now : Z) := sendToClient_via (handleDisconnection now).
Definition broadcastToAll (now : Z) := broadcastToAll_via (handleDisconnection now).
Definition broadcastToUser (now : Z) := broadcastToUser_via (handleDisconnection now).
Definition broadcastToRoom (now : Z) := broadcastToRoom_via (handleDisconnection now).

(** ** Message router *)

Section Handlers.
(** The clock reading of the callback that is running. *)
Variable now : Z.

Definition handleStateSync (clientId : string) (pl : option Payload) : Act :=
  match pl with
  | None => throw
  | Some p =>
      let excludeSelf := default true (p_excludeSelf p) in
      let broadcastMessage :=
        {| type := STATE_SYNC; payload := StatePayload (p_stateUpdates p);
           timestamp := now; clientId := Some clientId |} in
      let exclude := if excludeSelf then Some clientId else None in
      match p_targetUsers p with
      | Some (u :: us) =>
          forEach (u :: us) (λ user, broadcastToUser now user broadcastMessage exclude)
      | _ => broadcastToAll now broadcastMessage exclude
      end
  end.

Definition handleEventBroadcast (clientId : string) (pl : option Payload) : Act :=
  match pl with
  | None => throw
  | Some p =>
      let broadcastMessage :=
        {| type := EVENT_BROADCAST;
           payload := EventPayload (p_eventType p) (p_eventPayload p) clientId;
           timestamp := now; clientId := Some clientId |} in
      match p_room p with
      | Some room =>
          if truthy (Some room)
          then broadcastToRoom now room broadcastMessage (Some clientId)
          else broadcastToAll now broadcastMessage (Some clientId)
      | None => broadcastToAll now broadcastMessage (Some clientId)
      end
  end.

(** The three blocks of [handleSubscribe], in order. *)
Definition bindUser (clientId : string) (p : Payload) (σ : Server) : Server :=
  match p_userId p with
  | Some u =>
      if truthy (Some u)
      then setUserSessions (join clientId u)
             (setClients (updateClient clientId (withUserId u)) σ)
      else σ
  | None => σ
  end.

Definition addSubscriptions (clientId : string) (p : Payload) (σ : Server) : Server :=
  match p_subscriptions p with
  | Some subs =>
      fold_left
        (λ acc sub, setClients (updateClient clientId (withSubscriptions (JsSet.add sub))) acc)
        subs σ
  | None => σ
  end.

Definition joinRooms (clientId : string) (p : Payload) (σ : Server) : Server :=
  match p_rooms p with
  | Some rs => fold_left (λ acc roomId, setRooms (join clientId roomId) acc) rs σ
  | None => σ
  end.

Definition handleSubscribe (clientId : string) (pl : option Payload) : Act := λ σ,
  match JsMap.get clientId (clients σ) with
  | None => ret σ
  | Some _ =>
      match pl with
      | None => throw σ
      | Some p =>
          (modify (bindUser clientId p) >>>
           modify (addSubscriptions clientId p) >>>
           modify (joinRooms clientId p) >>>
           emit (LogSubscribed clientId)) σ
      end
  end.

(** The two blocks of [handleUnsubscribe]. *)
Definition removeSubscriptions (clientId : string) (p : Payload) (σ : Server) : Server :=
  match p_subscriptions p with
  | Some subs =>
      fold_left
        (λ acc sub, setClients (updateClient clientId (withSubscriptions (JsSet.delete sub))) acc)
        subs σ
  | None => σ
  end.

Definition leaveRooms (clientId : string) (p : Payload) (σ : Server) : Server :=
  match p_rooms p with
  | Some rs => fold_left (λ acc roomId, setRooms (leave clientId roomId) acc) rs σ
  | None => σ
  end.

Definition handleUnsubscribe (clientId : string) (pl : option Payload) : Act := λ σ,
  match JsMap.get clientId (clients σ) with
  | None => ret σ
  | Some _ =>
      match pl with
      | None => throw σ
      | Some p =>
          (modify (removeSubscriptions clientId p) >>>
           modify (leaveRooms clientId p)) σ
      end
  end.

Definition handleHeartbeat (clientId : string) : Act := λ σ,
  match JsMap.get clientId (clients σ) with
  | None => ret σ
  | Some _ =>
      (modify (setClients (updateClient clientId (withLastActivity now))) >>>
       sendToClient now clientId
         {| type := HEARTBEAT; payload := AlivePayload;
            timestamp := now; clientId := None |}) σ
  end.

(** [message] is [None] when the frame parsed to [null], on which reading
    [message.type] throws. *)
Definition handleMessage (clientId : string) (message : option InMessage) : Act := λ σ,
  match JsMap.get clientId (clients σ) with
  | None => ret σ
  | Some _ =>
      (modify (setClients (updateClient clientId (withLastActivity now))) >>>
       match message with
       | None => throw
       | Some m =>
           let tag := in_type m in
           if bool_decide (tag = Some "STATE_SYNC")
           then handleStateSync clientId (in_payload m)
           else if bool_decide (tag = Some "EVENT_BROADCAST")
           then handleEventBroadcast clientId (in_payload m)
           else if bool_decide (tag = Some "SUBSCRIBE")
           then handleSubscribe clientId (in_payload m)
           else if bool_decide (tag = Some "UNSUBSCRIBE")
           then handleUnsubscribe clientId (in_payload m)
           else if bool_decide (tag = Some "HEARTBEAT")
           then handleHeartbeat clientId
           else emit (WarnUnknownType tag)
       end) σ
  end.

(** The [ws.on("message")] callback that [initialize] installs for the
  connection [clientId]: parse, dispatch, and log whatever is thrown. *)
Definition onMessage (clientId : string) (data : Parsed) : Act :=
  tryCatch
    (match data with
     | ParseError => throw
     | ParsedNull => handleMessage clientId None
     | ParsedMessage m => handleMessage clientId (Some m)
     end)
    (emit (ErrorParse clientId)).

(** [ws.on("close")] and [ws.on("error")]. *)
Definition onClose (clientId : string) : Act := handleDisconnection now clientId.

Definition onError (clientId : string) : Act :=
  emit (ErrorSocket clientId) >>> handleDisconnection now clientId.

(** ** Liveness monitor *)

(** [setInterval] hands out a fresh handle; [timers] lists the intervals
    that are scheduled, each with the [clientId] its callback closed over. *)
Definition startHeartbeat (clientId : string) : Act :=
  modify (λ σ,
    {| clients := clients σ; rooms := rooms σ; userSessions := userSessions σ;
       timers := timers σ ++ [(nextTimer σ, clientId)];
       nextTimer := S (nextTimer σ) |}).

Definition clearInterval (interval : nat) (σ : Server) : Server :=
  {| clients := clients σ; rooms := rooms σ; userSessions := userSessions σ;
     timers := filter (λ hc, hc.1 ≠ interval) (timers σ);
     nextTimer := nextTimer σ |}.

Definition timerClient (interval : nat) (σ : Server) : option string :=
  match filter (λ hc, hc.1 = interval) (timers σ) with
  | (_, clientId) :: _ => Some clientId
  | [] => None
  end.

(** One firing of the interval callback of [startHeartbeat]; an interval
    that has been cleared does not fire. *)
Definition heartbeatTick (interval : nat) : Act := λ σ,
  match timerClient interval σ with
  | None => ret σ
  | Some clientId =>
      match JsMap.get clientId (clients σ) with
      | Some client =>
          if negb (isOpen (ws client))
          then modify (clearInterval interval) σ
          else sendToClient now clientId
                 {| type := HEARTBEAT; payload := PingPayload;
                    timestamp := now; clientId := None |} σ
      | None => modify (clearInterval interval) σ
      end
  end.

Definition timeout : Z := 5 * 60 * 1000.

Definition cleanupInactiveClients : Act :=
  Map_forEach clients
    (λ client clientId,
       if (now - lastActivity client >? timeout)%Z
       then emit (LogCleanup clientId) >>> handleDisconnection now clientId
       else ret).

(** ** Server façade: the [wss.on("connection")] callback of [initialize] *)

Definition onConnection (rnd36 : string) (sessionParam : option string)
    (socket : WebSocket) : Act :=
  let clientId := generateClientId now rnd36 in
  let sessionId := extractSessionId now sessionParam in
  let client :=
    {| id := clientId; ws := socket; userId := None; sessionId := sessionId;
       connectedAt := now; lastActivity := now; subscriptions := [] |} in
  modify (setClients (JsMap.set clientId client)) >>>
  (λ σ, emit (LogConnected clientId (JsMap.size (clients σ))) σ) >>>
  sendToClient now clientId
    {| type := USER_JOIN; payload := JoinPayload clientId sessionId;
       timestamp := now; clientId := None |} >>>
  startHeartbeat clientId.
End Handlers.

(** ** The event loop

    The server is single-threaded: the callbacks that [initialize] installs
    run to completion one at a time.  [SweepTick] is a firing of its 30 s
    clean-up interval, [HeartbeatTick] a firing of a connection's heartbeat
    interval, and [TransportChange] is the network changing a socket between
    callbacks. *)

Inductive Event :=
| Connection (rnd36 : string) (sessionParam : option string) (socket : WebSocket)
| WsMessage (clientId : string) (data : Parsed)
| WsClose (clientId : string)
| WsError (clientId : string)
| HeartbeatTick (interval : nat)
| SweepTick
| TransportChange (clientId : string) (socket : WebSocket).

Definition step (now : Z) (e : Event) : Act :=
  match e with
  | Connection rnd36 sessionParam socket => onConnection now rnd36 sessionParam socket
  | WsMessage clientId data => onMessage now clientId data
  | WsClose clientId => onClose now clientId
  | WsError clientId => onError now clientId
  | HeartbeatTick interval => heartbeatTick now interval
  | SweepTick => cleanupInactiveClients now
  | TransportChange clientId socket =>
      modify (setClients (updateClient clientId (withWs socket)))
  end.

(** Running a schedule of timed events from a state, collecting the trace. *)
Fixpoint run (schedule : list (Z * Event)) : Act :=
  match schedule with
  | [] => ret
  | (now, e) :: rest => step now e >>> run rest
  end.

Inductive reachable : Server → Prop :=
| reachable_new : reachable newServer
| reachable_step σ now e c σ' t :
    reachable σ → step now e σ = Some (c, σ', t) → reachable σ'.

(** ** Vocabulary of the properties *)

(** A connection that a write reaches: it is registered, its transport is
    open, and [ws.send] returns. *)
Definition accepts (σ : Server) (d : string) : Prop :=
  ∃ cl, JsMap.get d (clients σ) = Some cl
        ∧ isOpen (ws cl) = true ∧ sendThrows (ws cl) = false.

(** A membership index has no entry whose member set is empty. *)
Definition noEmptyEntry (m : list (string * list string)) : Prop :=
  Forall (λ kv, kv.2 ≠ []) m.

Definition noEmptySets (σ : Server) : Prop :=
  noEmptyEntry (rooms σ) ∧ noEmptyEntry (userSessions σ).

(** The registry after is the registry before with some entries deleted. *)
Definition registryShrinks (σ σ' : Server) : Prop :=
  ∀ k, JsMap.get k (clients σ') = None
       ∨ JsMap.get k (clients σ') = JsMap.get k (clients σ).

(** A relation between the server before and after that holds across the
    disconnect procedure whenever it is reflexive, transitive, and holds
    across the bookkeeping for a connection whose write has just failed. *)
Definition purgeClosed (R : Server → Server → Prop) : Prop :=
  (∀ σ, R σ σ)
  ∧ (∀ σ1 σ2 σ3, R σ1 σ2 → R σ2 σ3 → R σ1 σ3)
  ∧ (∀ σ c cl,
       JsMap.get c (clients σ) = Some cl →
       isOpen (ws cl) = true → sendThrows (ws cl) = true →
       R σ (purge c cl σ)).

(** Timers are neither started nor cleared. *)
Definition timersUnchanged (σ σ' : Server) : Prop :=
  timers σ' = timers σ ∧ nextTimer σ' = nextTimer σ.

(** The membership indexes after hold no member they did not hold before. *)
Definition indexShrinks (σ σ' : Server) : Prop :=
  (∀ r x, x ∈ membersOf r σ' → x ∈ membersOf r σ)
  ∧ (∀ u x, x ∈ connectionsOf u σ' → x ∈ connectionsOf u σ).

(** A connection that accepts writes keeps its registry entry and its
    memberships. *)
Definition keeps (d : string) (σ σ' : Server) : Prop :=
  accepts σ d →
  JsMap.get d (clients σ') = JsMap.get d (clients σ)
  ∧ (∀ r, d ∈ membersOf r σ → d ∈ membersOf r σ')
  ∧ (∀ u, d ∈ connectionsOf u σ → d ∈ connectionsOf u σ').

Definition keepsNoEmptySets (σ σ' : Server) : Prop :=
  noEmptySets σ → noEmptySets σ'.

(** The only messages the disconnect procedure writes are departures. *)
Definition announcementsOnly (e : Effect) : Prop :=
  match e with
  | WsSend _ m | WsSendThrew _ m => type m = USER_LEAVE
  | _ => True
  end.

(** Every connection that left the registry between [σ] and [σ'] was
    announced, with the user it was bound to, to every connection that is
    still registered and open in [σ']. *)
Definition announced (now : Z) (σ σ' : Server) (t : list Effect) : Prop :=
  ∀ c cl, JsMap.get c (clients σ) = Some cl → JsMap.get c (clients σ') = None →
  ∀ d cl', JsMap.get d (clients σ') = Some cl' → isOpen (ws cl') = true →
  WsSend d (leaveMessage now c cl) ∈ t.

(** A property of one run (state before, completion, state after, trace)
    that loops and sequences inherit from their parts. *)
Definition compositional (P : Server → Completion → Server → list Effect → Prop) : Prop :=
  (∀ σ, P σ Normal σ [])
  ∧ (∀ σ1 σ2 σ3 c t1 t2, P σ1 Normal σ2 t1 → P σ2 c σ3 t2 → P σ1 c σ3 (t1 ++ t2)).

(** The loop shared by the three broadcasts: the snapshot [l] is walked in
    order, an element that is no longer [live] is skipped, and the message
    goes to every other element but the excluded one. *)
Definition deliverLoop (now : Z) (live : string → Server → bool) (l : list string)
    (m : RealtimeMessage) (excl : option string) : Act :=
  forEach l
    (λ k σ, if live k σ
            then (if differs k excl then sendToClient now k m else ret) σ
            else ret σ).

(** The outbound messages the two broadcasting handlers build. *)
Definition eventBroadcastMessage (now : Z) (sender : string) (p : Payload) : RealtimeMessage :=
  {| type := EVENT_BROADCAST;
     payload := EventPayload (p_eventType p) (p_eventPayload p) sender;
     timestamp := now; clientId := Some sender |}.

Definition stateSyncMessage (now : Z) (sender : string) (p : Payload) : RealtimeMessage :=
  {| type := STATE_SYNC; payload := StatePayload (p_stateUpdates p);
     timestamp := now; clientId := Some sender |}.

(** ** Concrete servers and frames used as examples *)

Definition openSocket : WebSocket := {| readyState := OPEN; sendThrows := false |}.
Definition brokenSocket : WebSocket := {| readyState := OPEN; sendThrows := true |}.
Definition closingSocket : WebSocket := {| readyState := CLOSING; sendThrows := false |}.

Definition emptyPayload : Payload :=
  {| p_stateUpdates := None; p_targetUsers := None; p_excludeSelf := None;
     p_eventType := None; p_eventPayload := None; p_room := None;
     p_subscriptions := None; p_userId := None; p_rooms := None |}.

Definition subscribePayload (user : option string) (rs : option (list string)) : Payload :=
  {| p_stateUpdates := None; p_targetUsers := None; p_excludeSelf := None;
     p_eventType := None; p_eventPayload := None; p_room := None;
     p_subscriptions := None; p_userId := user; p_rooms := rs |}.

Definition subscribeFrame (user : option string) (rs : option (list string)) : Parsed :=
  ParsedMessage
    {| in_type := Some "SUBSCRIBE"; in_payload := Some (subscribePayload user rs) |}.

Definition eventPayloadFor (room : option string) : Payload :=
  {| p_stateUpdates := None; p_targetUsers := None; p_excludeSelf := None;
     p_eventType := Some "ping"; p_eventPayload := None; p_room := room;
     p_subscriptions := None; p_userId := None; p_rooms := None |}.

Definition statePayloadFor (users : option (list string)) (excludeSelf : option bool) : Payload :=
  {| p_stateUpdates := Some "{}"; p_targetUsers := users; p_excludeSelf := excludeSelf;
     p_eventType := None; p_eventPayload := None; p_room := None;
     p_subscriptions := None; p_userId := None; p_rooms := None |}.

(** Three connections accepted at times 1, 2 and 3. *)
Definition idA : string := generateClientId 1 "0.aaaaaaaaaaa".
Definition idB : string := generateClientId 2 "0.bbbbbbbbbbb".
Definition idC : string := generateClientId 3 "0.ccccccccccc".

Definition threeConnections : list (Z * Event) :=
  [(1%Z, Connection "0.aaaaaaaaaaa" None openSocket);
   (2%Z, Connection "0.bbbbbbbbbbb" None openSocket);
   (3%Z, Connection "0.ccccccccccc" None openSocket)].

(** The state a schedule leads to from a fresh server. *)
Definition stateAfter (schedule : list (Z * Event)) : Server :=
  match run schedule newServer with
  | Some (_, σ, _) => σ
  | None => newServer
  end.

(** A and B join the room whose name is the empty string; C joins nothing. *)
Definition unnamedRoomSchedule : list (Z * Event) :=
  threeConnections ++
  [(4%Z, WsMessage idA (subscribeFrame None (Some [""])));
   (5%Z, WsMessage idB (subscribeFrame None (Some [""])))].

Definition unnamedRoomServer : Server := Eval vm_compute in stateAfter unnamedRoomSchedule.

(** A and B join the room "global"; C joins nothing. *)
Definition globalRoomSchedule : list (Z * Event) :=
  threeConnections ++
  [(4%Z, WsMessage idA (subscribeFrame None (Some ["global"])));
   (5%Z, WsMessage idB (subscribeFrame None (Some ["global"])))].

Definition globalRoomServer : Server := Eval vm_compute in stateAfter globalRoomSchedule.

(** A and B bind the same user (two tabs); C binds another one. *)
Definition sharedUserSchedule : list (Z * Event) :=
  threeConnections ++
  [(4%Z, WsMessage idA (subscribeFrame (Some "u1") None));
   (5%Z, WsMessage idB (subscribeFrame (Some "u1") None));
   (6%Z, WsMessage idC (subscribeFrame (Some "u2") None))].

Definition sharedUserServer : Server := Eval vm_compute in stateAfter sharedUserSchedule.

(** A registry where A has been silent since time 0 and B spoke at 200000;
    A is bound to user "u1". *)
Definition idleSchedule : list (Z * Event) :=
  [(0%Z, Connection "0.aaaaaaaaaaa" None openSocket);
   (1%Z, WsMessage (generateClientId 0 "0.aaaaaaaaaaa") (subscribeFrame (Some "u1") (Some ["global"])));
   (2%Z, Connection "0.bbbbbbbbbbb" None openSocket);
   (200000%Z, WsMessage idB (subscribeFrame None (Some ["global"])))].

Definition idleServer : Server := Eval vm_compute in stateAfter idleSchedule.

Definition idleId : string := generateClientId 0 "0.aaaaaaaaaaa".

Definition idleClient : ClientConnection :=
  {| id := idleId; ws := openSocket; userId := Some "u1"; sessionId := "session_0";
     connectedAt := 0; lastActivity := 1; subscriptions := [] |}.

(** Every write in the trace, failed or not, went to a connection that was
    registered in [σ]. *)
Definition writesRegistered (σ : Server) (t : list Effect) : Prop :=
  ∀ d m, WsSend d m ∈ t ∨ WsSendThrew d m ∈ t → is_Some (JsMap.get d (clients σ)).

(** A is accepted and its transport then starts closing. *)
Definition closingSchedule : list (Z * Event) :=
  [(1%Z, Connection "0.aaaaaaaaaaa" None openSocket);
   (2%Z, TransportChange idA closingSocket)].

Definition closingServer : Server := Eval vm_compute in stateAfter closingSchedule.

Definition closingClient : ClientConnection :=
  {| id := idA; ws := closingSocket; userId := None; sessionId := "session_1";
     connectedAt := 1; lastActivity := 1; subscriptions := [] |}.

(** A and B are accepted and join "global"; then writes to A start to
    throw. *)
Definition brokenSchedule : list (Z * Event) :=
  [(1%Z, Connection "0.aaaaaaaaaaa" None openSocket);
   (2%Z, Connection "0.bbbbbbbbbbb" None openSocket);
   (3%Z, WsMessage idA (subscribeFrame None (Some ["global"])));
   (4%Z, WsMessage idB (subscribeFrame None (Some ["global"])));
   (5%Z, TransportChange idA brokenSocket)].

Definition brokenServer : Server := Eval vm_compute in stateAfter brokenSchedule.

Definition pingMessage (now : Z) : RealtimeMessage :=
  {| type := HEARTBEAT; payload := PingPayload; timestamp := now; clientId := None |}.

(** A connection is accepted at time 1 and its socket closes at time 2. *)
Definition closedSchedule : list (Z * Event) :=
  [(1%Z, Connection "0.aaaaaaaaaaa" None openSocket);
   (2%Z, WsClose idA)].

Definition closedServer : Server := Eval vm_compute in stateAfter closedSchedule.

(** The type tags of the wire protocol. *)
Definition recognizedTags : list string :=
  ["STATE_SYNC"; "EVENT_BROADCAST"; "USER_JOIN"; "USER_LEAVE"; "HEARTBEAT";
   "SUBSCRIBE"; "UNSUBSCRIBE"].

(** A frame that is not a message of the protocol: it does not parse, it
    parses to [null], or its type tag is missing or not one of the seven. *)
Definition unrecognized (data : Parsed) : Prop :=
  match data with
  | ParseError | ParsedNull => True
  | ParsedMessage m => ∀ tag, in_type m = Some tag → tag ∉ recognizedTags
  end.

Definition notATypeFrame : Parsed :=
  ParsedMessage {| in_type := Some "NOT_A_TYPE"; in_payload := Some emptyPayload |}.

(** An action keeps an invariant of the server. *)
Definition preserves (I : Server → Prop) (a : Act) : Prop :=
  ∀ σ cp σ' t, a σ = Some (cp, σ', t) → I σ → I σ'.

(** A accepts, binds user "u1", rebinds to user "u2", and closes. *)
Definition rebindSchedule : list (Z * Event) :=
  [(1%Z, Connection "0.aaaaaaaaaaa" None openSocket);
   (2%Z, WsMessage idA (subscribeFrame (Some "u1") None));
   (3%Z, WsMessage idA (subscribeFrame (Some "u2") None));
   (4%Z, WsClose idA)].

Definition rebindServer : Server := Eval vm_compute in stateAfter rebindSchedule.

(** Scenario B of the specification: X is the only member of "global" and
    disconnects. *)
Definition soleMemberSchedule : list (Z * Event) :=
  [(1%Z, Connection "0.aaaaaaaaaaa" None openSocket);
   (2%Z, WsMessage idA (subscribeFrame (Some "u1") (Some ["global"])));
   (3%Z, WsClose idA)].

Definition soleMemberServer : Server := Eval vm_compute in stateAfter soleMemberSchedule.

(** The identifiers handed out for a sequence of accepts, given the clock
    and random readings of each. *)
Definition generatedIds (readings : list (Z * string)) : list string :=
  (λ r, generateClientId r.1 r.2) <$> readings.

(** What of a reading ends up in the identifier: the millisecond, and nine
    characters of the random number's rendering. *)
Definition idSeed (r : Z * string) : Z * string := (r.1, String.substring 2 9 r.2).

Fixpoint hasUnderscore (s : string) : bool :=
  match s with
  | EmptyString => false
  | String a s' => if Ascii.ascii_dec a "_"%char then true else hasUnderscore s'
  end.

(** Two accepts in the same millisecond whose random numbers agree on their
    first nine base-36 digits. *)
Definition collidingSchedule : list (Z * Event) :=
  [(5%Z, Connection "0.abcdefghijk" None openSocket);
   (5%Z, Connection "0.abcdefghixyz" None openSocket)].

(** Every connection that left the registry between [σ] and [σ'] is in no
    room of [σ'], nor in the session set of the user it was bound to. *)
Definition purged (σ σ' : Server) : Prop :=
  ∀ c cl, JsMap.get c (clients σ) = Some cl → JsMap.get c (clients σ') = None →
  (∀ r, c ∉ membersOf r σ')
  ∧ (∀ u, userId cl = Some u → u ≠ "" → c ∉ connectionsOf u σ').

(** An action that always returns, and one that always returns normally. *)
Definition returns (a : Act) : Prop := ∀ σ, ∃ cp σ' t, a σ = Some (cp, σ', t).

Definition completes (a : Act) : Prop := ∀ σ, ∃ σ' t, a σ = Some (Normal, σ', t).

(** Every member of every room is a registered connection. *)
Definition roomMembersRegistered (σ : Server) : Prop :=
  ∀ r x, x ∈ membersOf r σ → is_Some (JsMap.get x (clients σ)).

Definition keepsRoomMembersRegistered (σ σ' : Server) : Prop :=
  roomMembersRegistered σ → roomMembersRegistered σ'.

(** * Properties *)

(** ** Association lists as maps *)

Section JsMapFacts.
Context {V : Type}.
Implicit Types (m : list (string * V)) (k : string) (v : V).

Lemma get_delete k k' m :
  JsMap.get k (JsMap.delete k' m) = if decide (k = k') then None else JsMap.get k m.
Proof.
  unfold JsMap.delete. induction m as [|[k0 v0] m IH]; simpl.
  - by case_decide.
  - rewrite filter_cons. simpl. destruct (decide (k0 ≠ k')) as [Hne|Heq]; simpl.
    + destruct (decide (k0 = k)) as [->|?]; [|done].
      by rewrite decide_False.
    + apply dec_stable in Heq. subst k0. rewrite IH.
      destruct (decide (k = k')) as [->|?]; [done|]. by rewrite decide_False.
Qed.

Lemma get_set k k' v m :
  JsMap.get k (JsMap.set k' v m) = if decide (k = k') then Some v else JsMap.get k m.
Proof.
  induction m as [|[k0 v0] m IH]; simpl.
  - destruct (decide (k' = k)) as [->|?].
    + by rewrite decide_True.
    + by rewrite decide_False.
  - destruct (decide (k0 = k')) as [->|Hne]; simpl.
    + destruct (decide (k' = k)) as [->|?].
      * by rewrite decide_True.
      * by rewrite decide_False.
    + destruct (decide (k0 = k)) as [->|?].
      * by rewrite decide_False.
      * done.
Qed.

Lemma get_Some_elem_of k v m : JsMap.get k m = Some v → (k, v) ∈ m.
Proof.
  induction m as [|[k0 v0] m IH]; simpl; [done|].
  case_decide; [intros [= ->]; subst; left | intros; right; auto].
Qed.

Lemma get_is_Some_keys k m : is_Some (JsMap.get k m) ↔ k ∈ JsMap.keys m.
Proof.
  unfold JsMap.keys. induction m as [|[k0 v0] m IH]; simpl.
  - split; [by intros [? ?] | by intros ?%elem_of_nil].
  - rewrite elem_of_cons. case_decide; subst.
    + split; eauto.
    + rewrite IH. naive_solver.
Qed.

Lemma get_None_keys k m : JsMap.get k m = None ↔ k ∉ JsMap.keys m.
Proof. rewrite <- get_is_Some_keys, eq_None_not_Some. done. Qed.

Lemma delete_length_le k m : length (JsMap.delete k m) ≤ length m.
Proof. apply length_filter. Qed.

Lemma delete_length_lt k v m :
  JsMap.get k m = Some v → length (JsMap.delete k m) < length m.
Proof.
  unfold JsMap.delete. induction m as [|[k0 v0] m IH]; simpl; [done|].
  rewrite filter_cons. simpl. case_decide; subst.
  - intros _. rewrite decide_False by (intros H; by apply H).
    pose proof (length_filter (λ kv : string * V, kv.1 ≠ k) m). lia.
  - intros Hg. rewrite decide_True by done. simpl. specialize (IH Hg). lia.
Qed.

Lemma set_Forall (P : string * V → Prop) k v m :
  P (k, v) → Forall P m → Forall P (JsMap.set k v m).
Proof.
  intros Hk. induction 1 as [|[k0 v0] m H0 Hm IH]; simpl.
  - by constructor.
  - case_decide; constructor; auto.
Qed.

Lemma delete_Forall (P : string * V → Prop) k m :
  Forall P m → Forall P (JsMap.delete k m).
Proof.
  rewrite !Forall_forall. intros H x [_ Hx]%list_elem_of_filter. auto.
Qed.

Lemma set_length_present k v v' m :
  JsMap.get k m = Some v' → length (JsMap.set k v m) = length m.
Proof.
  induction m as [|[k0 v0] m IH]; simpl; [done|].
  case_decide; simpl; [done|]. intros. by rewrite IH.
Qed.

Lemma set_same k v m : JsMap.get k m = Some v → JsMap.set k v m = m.
Proof.
  induction m as [|[k0 v0] m IH]; simpl; [done|].
  case_decide; subst.
  - by intros [= ->].
  - intros. by rewrite IH.
Qed.
End JsMapFacts.

Section JsSetFacts.
Implicit Types (s : list string) (x y : string).

Lemma set_has_true x s : JsSet.has x s = true ↔ x ∈ s.
Proof. unfold JsSet.has. by rewrite bool_decide_eq_true. Qed.

Lemma elem_of_set_add y x s : y ∈ JsSet.add x s ↔ y = x ∨ y ∈ s.
Proof.
  unfold JsSet.add, JsSet.has. case_bool_decide.
  - naive_solver.
  - rewrite elem_of_app, list_elem_of_singleton. naive_solver.
Qed.

Lemma elem_of_set_delete y x s : y ∈ JsSet.delete x s ↔ y ≠ x ∧ y ∈ s.
Proof. unfold JsSet.delete. by rewrite list_elem_of_filter. Qed.

Lemma set_add_present x s : x ∈ s → JsSet.add x s = s.
Proof. intros. unfold JsSet.add, JsSet.has. by rewrite bool_decide_eq_true_2. Qed.

Lemma set_add_nonempty x s : JsSet.add x s ≠ [].
Proof.
  unfold JsSet.add, JsSet.has. case_bool_decide as H.
  - intros ->. by apply elem_of_nil in H.
  - by destruct s.
Qed.
End JsSetFacts.

(** ** Sequencing *)

Lemma seq_inv (a b : Act) σ c σ' t :
  (a >>> b) σ = Some (c, σ', t) →
  (c = Thrown ∧ a σ = Some (Thrown, σ', t)) ∨
  ∃ σ1 t1 t2, a σ = Some (Normal, σ1, t1) ∧ b σ1 = Some (c, σ', t2) ∧ t = t1 ++ t2.
Proof.
  unfold seq. destruct (a σ) as [[[[] σ1] t1]|]; [| |done].
  - destruct (b σ1) as [[[c2 σ2] t2]|] eqn:Hb; [|done].
    intros [= <- <- <-]. right. by exists σ1, t1, t2.
  - intros [= <- <- <-]. by left.
Qed.

Lemma seq_run (a b : Act) σ σ1 t1 c σ2 t2 :
  a σ = Some (Normal, σ1, t1) → b σ1 = Some (c, σ2, t2) →
  (a >>> b) σ = Some (c, σ2, t1 ++ t2).
Proof. intros Ha Hb. unfold seq. by rewrite Ha, Hb. Qed.

Lemma forEach_ext {K} (l : list K) (f g : K → Act) :
  (∀ k σ, f k σ = g k σ) → ∀ σ, forEach l f σ = forEach l g σ.
Proof.
  intros Hfg. induction l as [|k l IH]; intros σ; simpl; [done|].
  unfold seq. rewrite Hfg. destruct (g k σ) as [[[[] σ1] t1]|]; [|done|done].
  by rewrite IH.
Qed.

(** Loops whose body always completes normally do so themselves, and keep
    whatever the body keeps. *)
Lemma forEach_total {K} (I : Server → Prop) (l : list K) (body : K → Act) :
  (∀ k σ, I σ → ∃ σ' t, body k σ = Some (Normal, σ', t) ∧ I σ') →
  ∀ σ, I σ → ∃ σ' t, forEach l body σ = Some (Normal, σ', t) ∧ I σ'.
Proof.
  intros Hbody. induction l as [|k l IH]; intros σ Hσ; simpl.
  - by exists σ, [].
  - destruct (Hbody k σ Hσ) as (σ1 & t1 & H1 & HI1).
    destruct (IH σ1 HI1) as (σ2 & t2 & H2 & HI2).
    exists σ2, (t1 ++ t2). split; [|done]. by eapply seq_run.
Qed.

(** A transitive relation between the state before and after that every
    round of the body establishes holds across the loop. *)
Lemma forEach_rel {K} (R : Server → Server → Prop) (l : list K) (body : K → Act) :
  (∀ σ, R σ σ) → (∀ σ1 σ2 σ3, R σ1 σ2 → R σ2 σ3 → R σ1 σ3) →
  (∀ k σ c σ' t, body k σ = Some (c, σ', t) → R σ σ') →
  ∀ σ c σ' t, forEach l body σ = Some (c, σ', t) → R σ σ'.
Proof.
  intros Hrefl Htrans Hbody. induction l as [|k l IH]; intros σ c σ' t; simpl.
  - by intros [= _ <- _].
  - intros [[_ H]|(σ1 & t1 & t2 & H1 & H2 & _)]%seq_inv; eauto.
Qed.

Lemma forEach_trace {K} (Q : Effect → Prop) (l : list K) (body : K → Act) :
  (∀ k σ c σ' t, body k σ = Some (c, σ', t) → Forall Q t) →
  ∀ σ c σ' t, forEach l body σ = Some (c, σ', t) → Forall Q t.
Proof.
  intros Hbody. induction l as [|k l IH]; intros σ c σ' t; simpl.
  - by intros [= _ _ <-].
  - intros [[_ H]|(σ1 & t1 & t2 & H1 & H2 & ->)]%seq_inv; [eauto|].
    apply Forall_app. eauto.
Qed.

(** ** The disconnect procedure terminates *)

Section RoutingTotal.
Variable disconnect : string → Act.
Variable n : nat.

(** What the failure path needs from the procedure it calls: on a state
    with at most [n] registered connections it completes and does not
    register anyone. *)
Hypothesis disconnect_total : ∀ c σ,
  length (clients σ) ≤ n →
  ∃ σ' t, disconnect c σ = Some (Normal, σ', t) ∧ length (clients σ') ≤ length (clients σ).

Lemma sendToClient_via_total c m σ :
  length (clients σ) ≤ n →
  ∃ σ' t, sendToClient_via disconnect c m σ = Some (Normal, σ', t)
          ∧ length (clients σ') ≤ length (clients σ).
Proof.
  intros Hn. unfold sendToClient_via.
  destruct (JsMap.get c (clients σ)) as [cl|]; [|by exists σ, []].
  destruct (isOpen (ws cl)); simpl; [|by exists σ, []].
  destruct (sendThrows (ws cl)); [|by eexists σ, _].
  destruct (disconnect_total c σ Hn) as (σ' & t & Hd & Hle).
  exists σ', ([WsSendThrew c m] ++ [ErrorSend c] ++ t). split; [|done].
  eapply seq_run; [done|]. eapply seq_run; done.
Qed.

Lemma guarded_send_total c m excl σ :
  length (clients σ) ≤ n →
  ∃ σ' t, (if differs c excl then sendToClient_via disconnect c m else ret) σ
            = Some (Normal, σ', t)
          ∧ length (clients σ') ≤ length (clients σ).
Proof.
  intros Hn. destruct (differs c excl); [|by exists σ, []].
  by apply sendToClient_via_total.
Qed.

Lemma broadcastToAll_via_total m excl σ :
  length (clients σ) ≤ n →
  ∃ σ' t, broadcastToAll_via disconnect m excl σ = Some (Normal, σ', t)
          ∧ length (clients σ') ≤ length (clients σ).
Proof.
  intros Hn. unfold broadcastToAll_via, Map_forEach.
  apply (forEach_total (λ σ', length (clients σ') ≤ length (clients σ))); [|done].
  intros k σ1 H1. destruct (JsMap.get k (clients σ1)); [|by exists σ1, []].
  destruct (guarded_send_total k m excl σ1) as (σ2 & t & ? & ?); [lia|].
  exists σ2, t. split; [done|lia].
Qed.

Lemma Set_forEach_send_total sel m excl σ :
  length (clients σ) ≤ n →
  ∃ σ' t,
    Set_forEach sel
      (λ c, if differs c excl then sendToClient_via disconnect c m else ret) σ
      = Some (Normal, σ', t)
    ∧ length (clients σ') ≤ length (clients σ).
Proof.
  intros Hn. unfold Set_forEach.
  apply (forEach_total (λ σ', length (clients σ') ≤ length (clients σ))); [|done].
  intros k σ1 H1. destruct (JsSet.has k (sel σ1)); [|by exists σ1, []].
  destruct (guarded_send_total k m excl σ1) as (σ2 & t & ? & ?); [lia|].
  exists σ2, t. split; [done|lia].
Qed.

Lemma broadcastToUser_via_total u m excl σ :
  length (clients σ) ≤ n →
  ∃ σ' t, broadcastToUser_via disconnect u m excl σ = Some (Normal, σ', t)
          ∧ length (clients σ') ≤ length (clients σ).
Proof.
  intros Hn. unfold broadcastToUser_via.
  destruct (JsMap.get u (userSessions σ)); [|by exists σ, []].
  by apply Set_forEach_send_total.
Qed.

Lemma broadcastToRoom_via_total r m excl σ :
  length (clients σ) ≤ n →
  ∃ σ' t, broadcastToRoom_via disconnect r m excl σ = Some (Normal, σ', t)
          ∧ length (clients σ') ≤ length (clients σ).
Proof.
  intros Hn. unfold broadcastToRoom_via.
  destruct (JsMap.get r (rooms σ)); [|by exists σ, []].
  by apply Set_forEach_send_total.
Qed.
End RoutingTotal.

Lemma handleDisconnection_fuel_total now fuel c σ :
  length (clients σ) ≤ fuel →
  ∃ σ' t, handleDisconnection_fuel now fuel c σ = Some (Normal, σ', t)
          ∧ length (clients σ') ≤ length (clients σ).
Proof.
  revert c σ. induction fuel as [|fuel IH]; intros c σ Hn.
  - destruct (clients σ) as [|? ?] eqn:Hc; [|simpl in Hn; lia].
    exists σ, []. unfold handleDisconnection_fuel. by rewrite Hc.
  - simpl. destruct (JsMap.get c (clients σ)) as [cl|] eqn:Hg; [|by exists σ, []].
    pose proof (delete_length_lt _ _ _ Hg) as Hlt.
    destruct (broadcastToAll_via_total (handleDisconnection_fuel now fuel) fuel IH
                (leaveMessage now c cl) (Some c) (purge c cl σ)) as (σ' & t & Hb & Hle).
    { simpl. lia. }
    exists σ', ([] ++ [LogDisconnected c (JsMap.size (clients (purge c cl σ)))] ++ t).
    split; [|simpl in Hle; lia].
    eapply seq_run; [done|]. by eapply seq_run.
Qed.

Lemma handleDisconnection_total now c σ :
  ∃ σ' t, handleDisconnection now c σ = Some (Normal, σ', t)
          ∧ length (clients σ') ≤ length (clients σ).
Proof. by apply handleDisconnection_fuel_total. Qed.

(** ** Actions that always return *)

Lemma completes_returns a : completes a → returns a.
Proof. intros H σ. destruct (H σ) as (σ' & t & ?). by exists Normal, σ', t. Qed.

Lemma completes_ret : completes ret.
Proof. intros σ. by exists σ, []. Qed.

Lemma returns_throw : returns throw.
Proof. intros σ. by exists Thrown, σ, []. Qed.

Lemma completes_emit e : completes (emit e).
Proof. intros σ. by exists σ, [e]. Qed.

Lemma completes_modify f : completes (modify f).
Proof. intros σ. by exists (f σ), []. Qed.

Lemma completes_seq a b : completes a → completes b → completes (a >>> b).
Proof.
  intros Ha Hb σ. destruct (Ha σ) as (σ1 & t1 & H1). destruct (Hb σ1) as (σ2 & t2 & H2).
  exists σ2, (t1 ++ t2). by eapply seq_run.
Qed.

Lemma returns_seq a b : returns a → returns b → returns (a >>> b).
Proof.
  intros Ha Hb σ. unfold seq. destruct (Ha σ) as ([] & σ1 & t1 & ->).
  - destruct (Hb σ1) as (cp & σ2 & t2 & ->). by eexists _, _, _.
  - by eexists _, _, _.
Qed.

Lemma completes_tryCatch a b : returns a → completes b → completes (tryCatch a b).
Proof.
  intros Ha Hb σ. unfold tryCatch. destruct (Ha σ) as ([] & σ1 & t1 & ->).
  - by eexists _, _.
  - destruct (Hb σ1) as (σ2 & t2 & ->). by eexists _, _.
Qed.

Lemma completes_forEach {K} (l : list K) body :
  (∀ k, completes (body k)) → completes (forEach l body).
Proof.
  intros Hb. induction l as [|k l IH]; simpl; [apply completes_ret|].
  by apply completes_seq.
Qed.

(** ** Relations kept by delivery *)

Section RoutingRel.
Variable disconnect : string → Act.
Variable R : Server → Server → Prop.
Hypothesis R_closed : purgeClosed R.

(** The procedure is only ever called back for a registered connection
    whose write has just thrown. *)
Hypothesis disconnect_rel : ∀ c σ cl cp σ' t,
  JsMap.get c (clients σ) = Some cl →
  isOpen (ws cl) = true → sendThrows (ws cl) = true →
  disconnect c σ = Some (cp, σ', t) → R σ σ'.

Lemma sendToClient_via_rel c m σ cp σ' t :
  sendToClient_via disconnect c m σ = Some (cp, σ', t) → R σ σ'.
Proof.
  destruct R_closed as (Hrefl & Htrans & _).
  unfold sendToClient_via.
  destruct (JsMap.get c (clients σ)) as [cl|] eqn:Hg; [|by intros [= _ <- _]].
  destruct (isOpen (ws cl)) eqn:Ho; simpl; [|by intros [= _ <- _]].
  destruct (sendThrows (ws cl)) eqn:Hs; [|by intros [= _ <- _]].
  intros [[_ [=]]|(σ1 & t1 & t2 & [= <- <-] & H2 & _)]%seq_inv.
  apply seq_inv in H2 as [[_ [=]]|(σ2 & t3 & t4 & [= <- <-] & H3 & _)].
  eauto.
Qed.

Lemma guarded_send_rel c m excl σ cp σ' t :
  (if differs c excl then sendToClient_via disconnect c m else ret) σ
    = Some (cp, σ', t) → R σ σ'.
Proof.
  destruct (differs c excl); [apply sendToClient_via_rel|].
  destruct R_closed as (Hrefl & _). by intros [= _ <- _].
Qed.

Lemma broadcastToAll_via_rel m excl σ cp σ' t :
  broadcastToAll_via disconnect m excl σ = Some (cp, σ', t) → R σ σ'.
Proof.
  destruct R_closed as (Hrefl & Htrans & _).
  unfold broadcastToAll_via, Map_forEach. apply forEach_rel; [done..|].
  intros k σ1 c1 σ2 t1. destruct (JsMap.get k (clients σ1)).
  - apply guarded_send_rel.
  - by intros [= _ <- _].
Qed.

Lemma Set_forEach_send_rel sel m excl σ cp σ' t :
  Set_forEach sel
    (λ c, if differs c excl then sendToClient_via disconnect c m else ret) σ
    = Some (cp, σ', t) → R σ σ'.
Proof.
  destruct R_closed as (Hrefl & Htrans & _).
  unfold Set_forEach. apply forEach_rel; [done..|].
  intros k σ1 c1 σ2 t1. destruct (JsSet.has k (sel σ1)).
  - apply guarded_send_rel.
  - by intros [= _ <- _].
Qed.

Lemma broadcastToUser_via_rel u m excl σ cp σ' t :
  broadcastToUser_via disconnect u m excl σ = Some (cp, σ', t) → R σ σ'.
Proof.
  unfold broadcastToUser_via. destruct (JsMap.get u (userSessions σ)).
  - apply Set_forEach_send_rel.
  - destruct R_closed as (Hrefl & _). by intros [= _ <- _].
Qed.

Lemma broadcastToRoom_via_rel r m excl σ cp σ' t :
  broadcastToRoom_via disconnect r m excl σ = Some (cp, σ', t) → R σ σ'.
Proof.
  unfold broadcastToRoom_via. destruct (JsMap.get r (rooms σ)).
  - apply Set_forEach_send_rel.
  - destruct R_closed as (Hrefl & _). by intros [= _ <- _].
Qed.
End RoutingRel.

Lemma handleDisconnection_fuel_unregistered now fuel c σ :
  JsMap.get c (clients σ) = None →
  handleDisconnection_fuel now fuel c σ = Some (Normal, σ, []).
Proof. intros Hg. destruct fuel; simpl; by rewrite Hg. Qed.

(** After the bookkeeping for [c], the rest of the procedure keeps every
    purge-closed relation. *)
Lemma handleDisconnection_fuel_rel now R fuel c σ cl cp σ' t :
  purgeClosed R →
  JsMap.get c (clients σ) = Some cl →
  handleDisconnection_fuel now fuel c σ = Some (cp, σ', t) →
  R (purge c cl σ) σ'.
Proof.
  intros HR. revert c σ cl cp σ' t.
  induction fuel as [|fuel IH]; intros c σ cl cp σ' t Hg; simpl; rewrite Hg; [done|].
  intros [[_ [=]]|(σ1 & t1 & t2 & [= <- <-] & H2 & _)]%seq_inv.
  apply seq_inv in H2 as [[_ [=]]|(σ2 & t3 & t4 & [= <- <-] & H3 & _)].
  eapply (broadcastToAll_via_rel _ R HR); [|exact H3].
  intros c' σ0 cl' cp' σ0' t' Hg' Ho Hs Hd.
  destruct HR as (_ & Htrans & Hpurge). eauto.
Qed.

Lemma handleDisconnection_rel now R c σ cl cp σ' t :
  purgeClosed R →
  JsMap.get c (clients σ) = Some cl →
  handleDisconnection now c σ = Some (cp, σ', t) →
  R (purge c cl σ) σ'.
Proof. apply handleDisconnection_fuel_rel. Qed.

Lemma handleDisconnection_failing_rel now R c σ cl cp σ' t :
  purgeClosed R →
  JsMap.get c (clients σ) = Some cl →
  isOpen (ws cl) = true → sendThrows (ws cl) = true →
  handleDisconnection now c σ = Some (cp, σ', t) → R σ σ'.
Proof.
  intros HR Hg Ho Hs Hd. pose proof (handleDisconnection_rel _ _ _ _ _ _ _ _ HR Hg Hd).
  destruct HR as (_ & Htrans & Hpurge). eauto.
Qed.

Lemma sendToClient_rel now R c m σ cp σ' t :
  purgeClosed R → sendToClient now c m σ = Some (cp, σ', t) → R σ σ'.
Proof.
  intros HR. apply sendToClient_via_rel; [done|].
  intros. by eapply handleDisconnection_failing_rel.
Qed.

Lemma broadcastToAll_rel now R m excl σ cp σ' t :
  purgeClosed R → broadcastToAll now m excl σ = Some (cp, σ', t) → R σ σ'.
Proof.
  intros HR. apply broadcastToAll_via_rel; [done|].
  intros. by eapply handleDisconnection_failing_rel.
Qed.

Lemma broadcastToUser_rel now R u m excl σ cp σ' t :
  purgeClosed R → broadcastToUser now u m excl σ = Some (cp, σ', t) → R σ σ'.
Proof.
  intros HR. apply broadcastToUser_via_rel; [done|].
  intros. by eapply handleDisconnection_failing_rel.
Qed.

Lemma broadcastToRoom_rel now R r m excl σ cp σ' t :
  purgeClosed R → broadcastToRoom now r m excl σ = Some (cp, σ', t) → R σ σ'.
Proof.
  intros HR. apply broadcastToRoom_via_rel; [done|].
  intros. by eapply handleDisconnection_failing_rel.
Qed.

(** ** The recursion of the disconnect procedure, as the source writes it *)

Lemma forEach_agree {K} (I : Server → Prop) (l : list K) (f g : K → Act) :
  (∀ k σ, I σ → f k σ = g k σ) →
  (∀ k σ cp σ' t, I σ → f k σ = Some (cp, σ', t) → I σ') →
  ∀ σ, I σ → forEach l f σ = forEach l g σ.
Proof.
  intros Hfg Hinv. induction l as [|k l IH]; intros σ Hσ; simpl; [done|].
  unfold seq. rewrite <- (Hfg k σ Hσ).
  destruct (f k σ) as [[[[] σ1] t1]|] eqn:Hf; [|done|done].
  rewrite (IH σ1); [done|]. by eapply Hinv.
Qed.

Section RoutingAgree.
Variables disconnect1 disconnect2 : string → Act.
Variable n : nat.
Hypothesis agree : ∀ c σ, length (clients σ) ≤ n → disconnect1 c σ = disconnect2 c σ.
Hypothesis disconnect1_total : ∀ c σ,
  length (clients σ) ≤ n →
  ∃ σ' t, disconnect1 c σ = Some (Normal, σ', t) ∧ length (clients σ') ≤ length (clients σ).

Lemma sendToClient_via_agree c m σ :
  length (clients σ) ≤ n →
  sendToClient_via disconnect1 c m σ = sendToClient_via disconnect2 c m σ.
Proof.
  intros Hn. unfold sendToClient_via.
  destruct (JsMap.get c (clients σ)) as [cl|]; [|done].
  destruct (negb (isOpen (ws cl))); [done|].
  destruct (sendThrows (ws cl)); [|done].
  unfold seq, emit. by rewrite agree.
Qed.

Lemma broadcastToAll_via_agree m excl σ :
  length (clients σ) ≤ n →
  broadcastToAll_via disconnect1 m excl σ = broadcastToAll_via disconnect2 m excl σ.
Proof.
  intros Hn. unfold broadcastToAll_via, Map_forEach.
  apply (forEach_agree (λ σ', length (clients σ') ≤ n)); [| |done].
  - intros k σ1 H1. destruct (JsMap.get k (clients σ1)); [|done].
    destruct (differs k excl); [|done]. by apply sendToClient_via_agree.
  - intros k σ1 cp σ' t H1. destruct (JsMap.get k (clients σ1)); [|by intros [= _ <- _]].
    destruct (guarded_send_total disconnect1 n disconnect1_total k m excl σ1 H1)
      as (σ2 & t2 & -> & Hle).
    intros [= _ <- _]. lia.
Qed.
End RoutingAgree.

(** Fuel beyond the number of registered connections is never used. *)
Lemma handleDisconnection_fuel_agree now fuel1 fuel2 c σ :
  length (clients σ) ≤ fuel1 → length (clients σ) ≤ fuel2 →
  handleDisconnection_fuel now fuel1 c σ = handleDisconnection_fuel now fuel2 c σ.
Proof.
  revert fuel2 c σ. induction fuel1 as [|fuel1 IH]; intros fuel2 c σ H1 H2.
  - destruct (clients σ) as [|? ?] eqn:Hc; [|simpl in H1; lia].
    rewrite !handleDisconnection_fuel_unregistered; by rewrite ?Hc.
  - destruct (JsMap.get c (clients σ)) as [cl|] eqn:Hg.
    2: { by rewrite !handleDisconnection_fuel_unregistered. }
    pose proof (delete_length_lt _ _ _ Hg) as Hlt.
    destruct fuel2 as [|fuel2]; [lia|]. simpl. rewrite Hg.
    unfold seq at 1 3. unfold modify at 1 2. unfold seq at 1 2. simpl.
    rewrite (broadcastToAll_via_agree (handleDisconnection_fuel now fuel1)
               (handleDisconnection_fuel now fuel2) (min fuel1 fuel2)); [done|..].
    + intros c' σ' Hn. apply IH; lia.
    + intros c' σ' Hn. apply handleDisconnection_fuel_total. lia.
    + simpl. lia.
Qed.

(** [handleDisconnection] satisfies the recursion equation of the source:
    look the connection up, purge it, log, and announce the departure with
    [broadcastToAll], which calls [handleDisconnection] itself on a failed
    write. *)
Lemma handleDisconnection_unfold now c σ :
  handleDisconnection now c σ
  = match JsMap.get c (clients σ) with
    | None => ret σ
    | Some client =>
        (modify (purge c client) >>>
         (λ σ', emit (LogDisconnected c (JsMap.size (clients σ'))) σ') >>>
         broadcastToAll now (leaveMessage now c client) (Some c)) σ
    end.
Proof.
  unfold handleDisconnection.
  destruct (JsMap.get c (clients σ)) as [cl|] eqn:Hg.
  2: { by rewrite handleDisconnection_fuel_unregistered. }
  pose proof (delete_length_lt _ _ _ Hg) as Hlt. unfold JsMap.size.
  destruct (length (clients σ)) as [|fuel] eqn:Hlen; [lia|].
  simpl. rewrite Hg.
  unfold seq at 1 3. unfold modify at 1 2. unfold seq at 1 2. simpl.
  unfold broadcastToAll.
  rewrite (broadcastToAll_via_agree (handleDisconnection_fuel now fuel)
             (handleDisconnection now) fuel); [done|..].
  - intros c' σ' Hn. unfold handleDisconnection. by apply handleDisconnection_fuel_agree.
  - intros c' σ' Hn. by apply handleDisconnection_fuel_total.
  - simpl. lia.
Qed.

(** ** The membership index under [join], [leave] and [purge] *)

Lemma set_delete_nil x s : JsSet.size (JsSet.delete x s) = 0 → JsSet.delete x s = [].
Proof. unfold JsSet.size. by intros ?%nil_length_inv. Qed.

Lemma set_delete_delete x s : JsSet.delete x (JsSet.delete x s) = JsSet.delete x s.
Proof.
  unfold JsSet.delete. rewrite list_filter_filter. apply list_filter_iff. naive_solver.
Qed.

Lemma members_leave c k k' (m : list (string * list string)) :
  default [] (JsMap.get k (leave c k' m))
  = if decide (k = k') then JsSet.delete c (default [] (JsMap.get k m))
    else default [] (JsMap.get k m).
Proof.
  unfold leave. destruct (JsMap.get k' m) as [s|] eqn:Hg.
  - case_bool_decide as Hz.
    + rewrite get_delete. case_decide; subst; [|done].
      rewrite Hg. simpl. by rewrite set_delete_nil.
    + rewrite get_set. case_decide; subst; [|done]. by rewrite Hg.
  - case_decide; subst; [|done]. by rewrite Hg.
Qed.

Lemma members_leave_fold c k l (m : list (string * list string)) :
  default [] (JsMap.get k (fold_left (λ acc r, leave c r acc) l m))
  = if decide (k ∈ l) then JsSet.delete c (default [] (JsMap.get k m))
    else default [] (JsMap.get k m).
Proof.
  revert m. induction l as [|r l IH]; intros m; cbn [fold_left].
  - case_decide as H; [by apply elem_of_nil in H|done].
  - rewrite IH, members_leave.
    destruct (decide (k = r)) as [Heq|Hne], (decide (k ∈ l)) as [Hin|Hnin],
      (decide (_ ∈ _ :: l)) as [Hc|Hc];
      rewrite ?set_delete_delete; try done.
    + exfalso. apply Hc, elem_of_cons. auto.
    + exfalso. apply Hc, elem_of_cons. auto.
    + exfalso. apply Hc, elem_of_cons. auto.
    + exfalso. by apply elem_of_cons in Hc as [?|?].
Qed.

Lemma membersOf_purge r c cl σ :
  membersOf r (purge c cl σ) = JsSet.delete c (membersOf r σ).
Proof.
  unfold membersOf, purge, leaveAllRooms. simpl. rewrite members_leave_fold.
  case_decide as Hin; [done|].
  apply get_None_keys in Hin. by rewrite Hin.
Qed.

Lemma connectionsOf_purge u c cl σ x :
  x ∈ connectionsOf u (purge c cl σ) ↔
  x ∈ connectionsOf u σ ∧ (x = c → ¬ (userId cl = Some u ∧ u ≠ "")).
Proof.
  unfold connectionsOf, purge, truthy. simpl.
  destruct (userId cl) as [u'|]; [|naive_solver].
  case_bool_decide as He; simpl; [naive_solver|].
  rewrite members_leave. case_decide; [|naive_solver].
  subst u'. rewrite elem_of_set_delete. naive_solver.
Qed.

Lemma clients_purge k c cl σ :
  JsMap.get k (clients (purge c cl σ))
  = if decide (k = c) then None else JsMap.get k (clients σ).
Proof. simpl. apply get_delete. Qed.

Lemma leave_noEmptyEntry c k m : noEmptyEntry m → noEmptyEntry (leave c k m).
Proof.
  unfold noEmptyEntry, leave. intros Hm. destruct (JsMap.get k m) as [s|]; [|done].
  case_bool_decide as Hz.
  - by apply delete_Forall.
  - apply set_Forall; [|done]. simpl. intros Hnil. apply Hz. by rewrite Hnil.
Qed.

Lemma leave_fold_noEmptyEntry c l m :
  noEmptyEntry m → noEmptyEntry (fold_left (λ acc r, leave c r acc) l m).
Proof.
  revert m. induction l as [|r l IH]; intros m Hm; simpl; [done|].
  by apply IH, leave_noEmptyEntry.
Qed.

Lemma set_set {V} k (v1 v2 : V) m : JsMap.set k v2 (JsMap.set k v1 m) = JsMap.set k v2 m.
Proof.
  induction m as [|[k0 v0] m IH]; simpl.
  - by rewrite decide_True.
  - case_decide; simpl.
    + by rewrite decide_True.
    + rewrite decide_False by done. by rewrite IH.
Qed.

Lemma join_eq c k m :
  join c k m = JsMap.set k (JsSet.add c (default [] (JsMap.get k m))) m.
Proof.
  unfold join, JsMap.has. destruct (JsMap.get k m) as [s|] eqn:Hg.
  - by rewrite Hg.
  - rewrite get_set, decide_True by done. by rewrite set_set.
Qed.

Lemma join_noEmptyEntry c k m : noEmptyEntry m → noEmptyEntry (join c k m).
Proof.
  intros Hm. rewrite join_eq. apply set_Forall; [|done]. apply set_add_nonempty.
Qed.

Lemma purge_noEmptySets c cl σ : noEmptySets σ → noEmptySets (purge c cl σ).
Proof.
  intros [Hr Hu]. split; simpl.
  - by apply leave_fold_noEmptyEntry.
  - destruct (userId cl) as [u|]; [|done].
    destruct (bool_decide (u = "")); simpl; [done|].
    by apply leave_noEmptyEntry.
Qed.

(** ** The purge-closed relations *)

Lemma registryShrinks_closed : purgeClosed registryShrinks.
Proof.
  split; [|split].
  - intros σ k. by right.
  - intros σ1 σ2 σ3 H12 H23 k. destruct (H23 k) as [?|H3]; [by left|].
    rewrite H3. apply H12.
  - intros σ c cl _ _ _ k. rewrite clients_purge. case_decide; auto.
Qed.

Lemma timersUnchanged_closed : purgeClosed timersUnchanged.
Proof.
  split; [|split].
  - done.
  - intros σ1 σ2 σ3 [? ?] [? ?]. split; congruence.
  - done.
Qed.

Lemma indexShrinks_closed : purgeClosed indexShrinks.
Proof.
  split; [|split].
  - done.
  - intros σ1 σ2 σ3 [? ?] [? ?]. split; eauto.
  - intros σ c cl _ _ _. split.
    + intros r x. rewrite membersOf_purge, elem_of_set_delete. tauto.
    + intros u x. rewrite connectionsOf_purge. tauto.
Qed.

Lemma keepsNoEmptySets_closed : purgeClosed keepsNoEmptySets.
Proof.
  split; [|split].
  - by intros σ ?.
  - intros σ1 σ2 σ3 H12 H23 ?. by apply H23, H12.
  - intros σ c cl _ _ _ ?. by apply purge_noEmptySets.
Qed.

Lemma keeps_accepts d σ σ' : keeps d σ σ' → accepts σ d → accepts σ' d.
Proof. intros Hk Ha. destruct (Hk Ha) as (Hg & _). unfold accepts. by rewrite Hg. Qed.

Lemma keeps_closed d : purgeClosed (keeps d).
Proof.
  split; [|split].
  - by intros σ ?.
  - intros σ1 σ2 σ3 H12 H23 Ha.
    pose proof (keeps_accepts _ _ _ H12 Ha) as Ha2.
    destruct (H12 Ha) as (Hg1 & Hr1 & Hu1). destruct (H23 Ha2) as (Hg2 & Hr2 & Hu2).
    split; [congruence|]. split; auto.
  - intros σ c cl Hg Ho Hs (cl' & Hg' & Ho' & Hs').
    assert (d ≠ c) as Hne by (intros ->; congruence).
    split; [|split].
    + rewrite clients_purge. by rewrite decide_False.
    + intros r. rewrite membersOf_purge, elem_of_set_delete. tauto.
    + intros u. rewrite connectionsOf_purge. tauto.
Qed.

(** ** Properties of whole runs *)

Lemma forEach_post {K} P (l : list K) (body : K → Act) :
  compositional P →
  (∀ k σ c σ' t, body k σ = Some (c, σ', t) → P σ c σ' t) →
  ∀ σ c σ' t, forEach l body σ = Some (c, σ', t) → P σ c σ' t.
Proof.
  intros [Hnil Happ] Hbody. induction l as [|k l IH]; intros σ c σ' t; simpl.
  - by intros [= <- <- <-].
  - intros [[-> H]|(σ1 & t1 & t2 & H1 & H2 & ->)]%seq_inv; eauto.
Qed.

Section RoutingPost.
Variable disconnect : string → Act.
Variable P : Server → Completion → Server → list Effect → Prop.
Variable m : RealtimeMessage.
Hypothesis P_comp : compositional P.
Hypothesis P_send : ∀ σ c cl,
  JsMap.get c (clients σ) = Some cl → P σ Normal σ [WsSend c m].
Hypothesis P_threw : ∀ σ c cl,
  JsMap.get c (clients σ) = Some cl → P σ Normal σ [WsSendThrew c m].
Hypothesis P_error : ∀ σ c, P σ Normal σ [ErrorSend c].
Hypothesis disconnect_post : ∀ c σ cl cp σ' t,
  JsMap.get c (clients σ) = Some cl →
  isOpen (ws cl) = true → sendThrows (ws cl) = true →
  disconnect c σ = Some (cp, σ', t) → P σ cp σ' t.

Lemma sendToClient_via_post c σ cp σ' t :
  sendToClient_via disconnect c m σ = Some (cp, σ', t) → P σ cp σ' t.
Proof.
  destruct P_comp as [Hnil Happ]. unfold sendToClient_via.
  destruct (JsMap.get c (clients σ)) as [cl|] eqn:Hg; [|by intros [= <- <- <-]].
  destruct (isOpen (ws cl)) eqn:Ho; simpl; [|by intros [= <- <- <-]].
  destruct (sendThrows (ws cl)) eqn:Hs; [|intros [= <- <- <-]; eauto].
  intros [[_ [=]]|(σ1 & t1 & t2 & [= <- <-] & H2 & ->)]%seq_inv.
  apply seq_inv in H2 as [[_ [=]]|(σ2 & t3 & t4 & [= <- <-] & H3 & ->)].
  eauto.
Qed.

Lemma guarded_send_post c excl σ cp σ' t :
  (if differs c excl then sendToClient_via disconnect c m else ret) σ
    = Some (cp, σ', t) → P σ cp σ' t.
Proof.
  destruct (differs c excl); [apply sendToClient_via_post|].
  destruct P_comp as [Hnil _]. by intros [= <- <- <-].
Qed.

Lemma broadcastToAll_via_post excl σ cp σ' t :
  broadcastToAll_via disconnect m excl σ = Some (cp, σ', t) → P σ cp σ' t.
Proof.
  unfold broadcastToAll_via, Map_forEach. apply forEach_post; [done|].
  intros k σ1 c1 σ2 t1. destruct (JsMap.get k (clients σ1)).
  - apply guarded_send_post.
  - destruct P_comp as [Hnil _]. by intros [= <- <- <-].
Qed.

Lemma Set_forEach_send_post sel excl σ cp σ' t :
  Set_forEach sel
    (λ c, if differs c excl then sendToClient_via disconnect c m else ret) σ
    = Some (cp, σ', t) → P σ cp σ' t.
Proof.
  unfold Set_forEach. apply forEach_post; [done|].
  intros k σ1 c1 σ2 t1. destruct (JsSet.has k (sel σ1)).
  - apply guarded_send_post.
  - destruct P_comp as [Hnil _]. by intros [= <- <- <-].
Qed.
End RoutingPost.

(** *** The procedure completes normally and writes only departures *)

Lemma announcementsOnly_comp :
  compositional (λ _ c _ t, c = Normal ∧ Forall announcementsOnly t).
Proof.
  split; [done|]. intros _ _ _ c t1 t2 [_ H1] [-> H2]. split; [done|].
  by apply Forall_app.
Qed.

Lemma handleDisconnection_fuel_trace now fuel c σ cp σ' t :
  handleDisconnection_fuel now fuel c σ = Some (cp, σ', t) →
  cp = Normal ∧ Forall announcementsOnly t.
Proof.
  revert c σ cp σ' t. induction fuel as [|fuel IH]; intros c σ cp σ' t; simpl;
    (destruct (JsMap.get c (clients σ)) as [cl|] eqn:Hg; [|by intros [= <- <- <-]]);
    [done|].
  intros [[_ [=]]|(σ1 & t1 & t2 & [= <- <-] & H2 & ->)]%seq_inv.
  apply seq_inv in H2 as [[_ [=]]|(σ2 & t3 & t4 & [= <- <-] & H3 & ->)].
  apply (broadcastToAll_via_post _ (λ _ c _ t, c = Normal ∧ Forall announcementsOnly t))
    in H3 as [-> H3]; try done.
  - split; [done|]. simpl. by constructor.
  - apply announcementsOnly_comp.
  - intros. split; [done|]. by repeat constructor.
  - intros. split; [done|]. by repeat constructor.
  - intros. split; [done|]. by repeat constructor.
  - intros. by eapply IH.
Qed.

Lemma handleDisconnection_trace now c σ cp σ' t :
  handleDisconnection now c σ = Some (cp, σ', t) →
  cp = Normal ∧ Forall announcementsOnly t.
Proof. apply handleDisconnection_fuel_trace. Qed.

(** *** The registry shrinks, and the disconnected connection is gone *)

Lemma handleDisconnection_fuel_shrinks now fuel c σ cp σ' t :
  handleDisconnection_fuel now fuel c σ = Some (cp, σ', t) → registryShrinks σ σ'.
Proof.
  destruct (JsMap.get c (clients σ)) as [cl|] eqn:Hg.
  - intros Hd%(handleDisconnection_fuel_rel _ registryShrinks _ _ _ cl);
      [|apply registryShrinks_closed|done].
    destruct registryShrinks_closed as (_ & Htrans & _).
    apply (Htrans _ (purge c cl σ)); [|done].
    intros k. rewrite clients_purge. case_decide; auto.
  - rewrite handleDisconnection_fuel_unregistered by done.
    intros [= _ <- _]. intros k. by right.
Qed.

Lemma handleDisconnection_fuel_removes now fuel c σ cp σ' t :
  handleDisconnection_fuel now fuel c σ = Some (cp, σ', t) →
  JsMap.get c (clients σ') = None.
Proof.
  destruct (JsMap.get c (clients σ)) as [cl|] eqn:Hg.
  - intros Hd%(handleDisconnection_fuel_rel _ registryShrinks _ _ _ cl);
      [|apply registryShrinks_closed|done].
    destruct (Hd c) as [?|Hc]; [done|]. rewrite Hc, clients_purge.
    by rewrite decide_True.
  - rewrite handleDisconnection_fuel_unregistered by done. by intros [= _ <- _].
Qed.

(** ** Who a broadcast reaches *)

Lemma announced_nil now σ e : announced now σ σ e.
Proof. intros c cl Hg Hn. congruence. Qed.

Lemma announced_app now σ1 σ2 σ3 t1 t2 :
  registryShrinks σ1 σ2 → registryShrinks σ2 σ3 →
  announced now σ1 σ2 t1 → announced now σ2 σ3 t2 →
  announced now σ1 σ3 (t1 ++ t2).
Proof.
  intros H12 H23 A1 A2 c cl Hg Hn d cl' Hd Ho. apply elem_of_app.
  destruct (JsMap.get c (clients σ2)) as [cl2|] eqn:Hg2.
  - right. destruct (H12 c) as [?|Hc]; [congruence|].
    eapply A2; eauto. congruence.
  - left. destruct (H23 d) as [?|Hc]; [congruence|].
    eapply A1; eauto. congruence.
Qed.

Lemma shrinks_announced_comp now :
  compositional (λ σ c σ' t, c = Normal ∧ registryShrinks σ σ' ∧ announced now σ σ' t).
Proof.
  destruct registryShrinks_closed as (Hrefl & Htrans & _). split.
  - intros σ. split; [done|]. split; [done|]. apply announced_nil.
  - intros σ1 σ2 σ3 c t1 t2 (_ & S1 & A1) (-> & S2 & A2).
    split; [done|]. split; [eauto|]. by apply (announced_app _ _ σ2).
Qed.

Section RoutingReach.
Variable now : Z.
Variable disconnect : string → Act.
Hypothesis disconnect_normal : ∀ c σ cp σ' t,
  disconnect c σ = Some (cp, σ', t) → cp = Normal.
Hypothesis disconnect_shrinks : ∀ c σ cp σ' t,
  disconnect c σ = Some (cp, σ', t) → registryShrinks σ σ'.
Hypothesis disconnect_removes : ∀ c σ cp σ' t,
  disconnect c σ = Some (cp, σ', t) → JsMap.get c (clients σ') = None.

Lemma sendToClient_via_reaches c m σ cp σ' t cl' :
  sendToClient_via disconnect c m σ = Some (cp, σ', t) →
  JsMap.get c (clients σ') = Some cl' → isOpen (ws cl') = true →
  WsSend c m ∈ t.
Proof.
  intros Hsend Hg' Ho'.
  assert (registryShrinks σ σ') as Hsh.
  { eapply sendToClient_via_rel; [apply registryShrinks_closed| |done]. eauto. }
  destruct (Hsh c) as [?|Hc]; [congruence|]. rewrite Hg' in Hc.
  unfold sendToClient_via in Hsend. rewrite <- Hc, Ho' in Hsend. simpl in Hsend.
  destruct (sendThrows (ws cl')).
  - apply seq_inv in Hsend as [[_ [=]]|(σ1 & t1 & t2 & [= <- <-] & H2 & ->)].
    apply seq_inv in H2 as [[_ [=]]|(σ2 & t3 & t4 & [= <- <-] & H3 & ->)].
    apply disconnect_removes in H3. congruence.
  - injection Hsend as <- <- <-. by left.
Qed.

Lemma broadcastToAll_via_normal m excl σ cp σ' t :
  broadcastToAll_via disconnect m excl σ = Some (cp, σ', t) → cp = Normal.
Proof.
  apply (broadcastToAll_via_post disconnect (λ _ c _ _, c = Normal)); try done.
  eauto.
Qed.

Lemma broadcastToAll_via_reaches m excl σ cp σ' t d cl' :
  broadcastToAll_via disconnect m excl σ = Some (cp, σ', t) →
  JsMap.get d (clients σ') = Some cl' → isOpen (ws cl') = true →
  differs d excl = true →
  WsSend d m ∈ t.
Proof.
  intros Hb Hg' Ho' Hdiff.
  assert (d ∈ JsMap.keys (clients σ)) as Hin.
  { apply get_is_Some_keys.
    assert (registryShrinks σ σ') as Hsh.
    { eapply broadcastToAll_via_rel; [apply registryShrinks_closed| |done]. eauto. }
    destruct (Hsh d) as [?|Hc]; [congruence|]. rewrite <- Hc. eauto. }
  unfold broadcastToAll_via, Map_forEach in Hb.
  revert Hin Hb. generalize (JsMap.keys (clients σ)) as l.
  intros l. revert σ cp t. induction l as [|k l IH]; intros σ cp t Hin; simpl.
  { by apply elem_of_nil in Hin. }
  intros [[_ H]|(σ1 & t1 & t2 & H1 & H2 & ->)]%seq_inv.
  - exfalso. destruct (JsMap.get k (clients σ)); [|done].
    destruct (differs k excl); [|done].
    apply (sendToClient_via_post disconnect (λ _ c _ _, c = Normal)) in H; try done.
    eauto.
  - apply elem_of_app. apply elem_of_cons in Hin as [<-|Hin]; [left|right; eauto].
    assert (registryShrinks σ1 σ') as Hsh2.
    { refine (forEach_rel registryShrinks _ _ _ _ _ _ _ _ _ H2).
      - apply registryShrinks_closed.
      - apply registryShrinks_closed.
      - intros k' σa ca σb tb. destruct (JsMap.get k' (clients σa)).
        + apply guarded_send_rel; [apply registryShrinks_closed|]. eauto.
        + intros [= _ <- _]. apply registryShrinks_closed. }
    destruct (Hsh2 d) as [?|Hc]; [congruence|]. rewrite Hg' in Hc.
    destruct (JsMap.get d (clients σ)) as [cl|] eqn:Hg.
    + rewrite Hdiff in H1. by eapply sendToClient_via_reaches.
    + injection H1 as <- <-. congruence.
Qed.

Hypothesis disconnect_announced : ∀ c σ cp σ' t,
  disconnect c σ = Some (cp, σ', t) → announced now σ σ' t.

Lemma broadcastToAll_via_announced m excl σ cp σ' t :
  broadcastToAll_via disconnect m excl σ = Some (cp, σ', t) →
  registryShrinks σ σ' ∧ announced now σ σ' t.
Proof.
  intros Hb.
  apply (broadcastToAll_via_post disconnect
           (λ σ c σ' t, c = Normal ∧ registryShrinks σ σ' ∧ announced now σ σ' t))
    in Hb; [tauto|..].
  - apply shrinks_announced_comp.
  - intros. split; [done|]. split; [apply registryShrinks_closed|apply announced_nil].
  - intros. split; [done|]. split; [apply registryShrinks_closed|apply announced_nil].
  - intros. split; [done|]. split; [apply registryShrinks_closed|apply announced_nil].
  - intros c0 σ0 cl0 cp0 σ0' t0 _ _ _ Hd0.
    split; [by eapply disconnect_normal|].
    split; [by eapply disconnect_shrinks|by eapply disconnect_announced].
Qed.
End RoutingReach.

Lemma handleDisconnection_fuel_announced now fuel c σ cp σ' t :
  handleDisconnection_fuel now fuel c σ = Some (cp, σ', t) → announced now σ σ' t.
Proof.
  revert c σ cp σ' t. induction fuel as [|fuel IH]; intros c σ cp σ' t; simpl;
    (destruct (JsMap.get c (clients σ)) as [cl|] eqn:Hg;
     [|intros [= <- <- <-]; apply announced_nil]); [done|].
  intros [[_ [=]]|(σ1 & t1 & t2 & [= <- <-] & H2 & ->)]%seq_inv.
  apply seq_inv in H2 as [[_ [=]]|(σ2 & t3 & t4 & [= <- <-] & H3 & ->)].
  intros c0 cl0 Hg0 Hn0 d cl' Hd Ho. simpl. right.
  destruct (decide (c0 = c)) as [->|Hne].
  - assert (cl0 = cl) as -> by congruence.
    eapply (broadcastToAll_via_reaches (handleDisconnection_fuel now fuel)); eauto.
    + intros ????? Hx. by apply handleDisconnection_fuel_trace in Hx as [? _].
    + intros ?????. apply handleDisconnection_fuel_shrinks.
    + intros ?????. apply handleDisconnection_fuel_removes.
    + simpl. rewrite bool_decide_eq_false_2; [done|]. congruence.
  - eapply (broadcastToAll_via_announced now (handleDisconnection_fuel now fuel)) in H3
      as [_ H3]; eauto.
    + eapply H3; eauto. rewrite clients_purge. by rewrite decide_False.
    + intros ????? Hx. by apply handleDisconnection_fuel_trace in Hx as [? _].
    + intros ?????. apply handleDisconnection_fuel_shrinks.
Qed.

(** ** A connection that leaves the registry leaves the indexes *)

Lemma purged_refl σ : purged σ σ.
Proof. intros c cl Hg Hn. congruence. Qed.

Lemma purged_trans σ1 σ2 σ3 :
  registryShrinks σ1 σ2 → indexShrinks σ2 σ3 →
  purged σ1 σ2 → purged σ2 σ3 → purged σ1 σ3.
Proof.
  intros S12 [Ir Iu] P12 P23 c cl Hg Hn.
  destruct (JsMap.get c (clients σ2)) as [cl2|] eqn:Hg2.
  - destruct (S12 c) as [?|Hc]; [congruence|]. apply P23; congruence.
  - destruct (P12 c cl Hg Hg2) as [Hr Hu]. split.
    + intros r Hin. by apply (Hr r), Ir.
    + intros u Hcl Hne Hin. by apply (Hu u Hcl Hne), Iu.
Qed.

Lemma purged_comp :
  compositional (λ σ c σ' _, c = Normal ∧ registryShrinks σ σ' ∧ indexShrinks σ σ'
                             ∧ purged σ σ').
Proof.
  destruct registryShrinks_closed as (Hrefl & Htrans & _).
  destruct indexShrinks_closed as (Irefl & Itrans & _). split.
  - intros σ. split; [done|]. split; [done|]. split; [done|]. apply purged_refl.
  - intros σ1 σ2 σ3 c t1 t2 (_ & S1 & I1 & P1) (-> & S2 & I2 & P2).
    split; [done|]. split; [eauto|]. split; [eauto|]. by apply (purged_trans _ σ2).
Qed.

Lemma purge_purged c cl σ :
  (∀ r, c ∉ membersOf r (purge c cl σ))
  ∧ (∀ u, userId cl = Some u → u ≠ "" → c ∉ connectionsOf u (purge c cl σ)).
Proof.
  split.
  - intros r. rewrite membersOf_purge, elem_of_set_delete. tauto.
  - intros u Hu Hne. rewrite connectionsOf_purge. tauto.
Qed.

Lemma handleDisconnection_fuel_index now fuel c σ cp σ' t :
  handleDisconnection_fuel now fuel c σ = Some (cp, σ', t) → indexShrinks σ σ'.
Proof.
  destruct indexShrinks_closed as (Irefl & Itrans & _).
  destruct (JsMap.get c (clients σ)) as [cl|] eqn:Hg.
  - intros Hd%(handleDisconnection_fuel_rel _ indexShrinks _ _ _ cl);
      [|apply indexShrinks_closed|done].
    apply (Itrans _ (purge c cl σ)); [|done]. split.
    + intros r x. rewrite membersOf_purge, elem_of_set_delete. tauto.
    + intros u x. rewrite connectionsOf_purge. tauto.
  - rewrite handleDisconnection_fuel_unregistered by done. by intros [= _ <- _].
Qed.

Lemma handleDisconnection_fuel_purged now fuel c σ cp σ' t :
  handleDisconnection_fuel now fuel c σ = Some (cp, σ', t) → purged σ σ'.
Proof.
  revert c σ cp σ' t. induction fuel as [|fuel IH]; intros c σ cp σ' t; simpl;
    (destruct (JsMap.get c (clients σ)) as [cl|] eqn:Hg;
     [|intros [= <- <- <-]; apply purged_refl]); [done|].
  intros [[_ [=]]|(σ1 & t1 & t2 & [= <- <-] & H2 & ->)]%seq_inv.
  apply seq_inv in H2 as [[_ [=]]|(σ2 & t3 & t4 & [= <- <-] & H3 & ->)].
  apply (broadcastToAll_via_post _
           (λ σ c σ' _, c = Normal ∧ registryShrinks σ σ' ∧ indexShrinks σ σ'
                        ∧ purged σ σ'))
    in H3 as (_ & _ & [Ir Iu] & Hp).
  - intros c0 cl0 Hg0 Hn0. destruct (decide (c0 = c)) as [->|Hne].
    + assert (cl0 = cl) as -> by congruence.
      destruct (purge_purged c cl σ) as [Hr Hu]. split.
      * intros r Hin. by apply (Hr r), Ir.
      * intros u Hcl Hx Hin. by apply (Hu u Hcl Hx), Iu.
    + apply Hp; [|done]. rewrite clients_purge. by rewrite decide_False.
  - apply purged_comp.
  - intros. by apply purged_comp.
  - intros. by apply purged_comp.
  - intros. by apply purged_comp.
  - intros c0 σ0 cl0 cp0 σ0' t0 _ _ _ Hd.
    split; [by apply handleDisconnection_fuel_trace in Hd as [? _]|].
    split; [by eapply handleDisconnection_fuel_shrinks|].
    split; [by eapply handleDisconnection_fuel_index|by eapply IH].
Qed.

(** ** The disconnect procedure, without the recursion bound *)

Lemma handleDisconnection_normal now c σ cp σ' t :
  handleDisconnection now c σ = Some (cp, σ', t) → cp = Normal.
Proof. intros H. by apply handleDisconnection_trace in H as [? _]. Qed.

Lemma handleDisconnection_shrinks now c σ cp σ' t :
  handleDisconnection now c σ = Some (cp, σ', t) → registryShrinks σ σ'.
Proof. apply handleDisconnection_fuel_shrinks. Qed.

Lemma handleDisconnection_removes now c σ cp σ' t :
  handleDisconnection now c σ = Some (cp, σ', t) → JsMap.get c (clients σ') = None.
Proof. apply handleDisconnection_fuel_removes. Qed.

Lemma handleDisconnection_announced now c σ cp σ' t :
  handleDisconnection now c σ = Some (cp, σ', t) → announced now σ σ' t.
Proof. apply handleDisconnection_fuel_announced. Qed.

Lemma handleDisconnection_unregistered now c σ :
  JsMap.get c (clients σ) = None → handleDisconnection now c σ = Some (Normal, σ, []).
Proof. apply handleDisconnection_fuel_unregistered. Qed.

(** ** One send *)

Lemma sendToClient_total now c m σ :
  ∃ σ' t, sendToClient now c m σ = Some (Normal, σ', t).
Proof.
  destruct (sendToClient_via_total (handleDisconnection now) (length (clients σ))
              (λ c σ _, handleDisconnection_total now c σ) c m σ) as (σ' & t & H & _);
    eauto.
Qed.

Lemma sendToClient_normal now c m σ cp σ' t :
  sendToClient now c m σ = Some (cp, σ', t) → cp = Normal.
Proof.
  destruct (sendToClient_total now c m σ) as (σ1 & t1 & H). congruence.
Qed.

Lemma sendToClient_accepts now c m σ :
  accepts σ c → sendToClient now c m σ = Some (Normal, σ, [WsSend c m]).
Proof.
  intros (cl & Hg & Ho & Hs). unfold sendToClient, sendToClient_via.
  by rewrite Hg, Ho, Hs.
Qed.

Lemma sendToClient_delivered now c m σ cp σ' t d m0 :
  sendToClient now c m σ = Some (cp, σ', t) →
  WsSend d m0 ∈ t → type m0 ≠ USER_LEAVE →
  d = c ∧ m0 = m ∧ accepts σ c.
Proof.
  unfold sendToClient, sendToClient_via.
  destruct (JsMap.get c (clients σ)) as [cl|] eqn:Hg;
    [|by intros [= _ _ <-] ?%elem_of_nil].
  destruct (isOpen (ws cl)) eqn:Ho; simpl; [|by intros [= _ _ <-] ?%elem_of_nil].
  destruct (sendThrows (ws cl)) eqn:Hs.
  - intros [[_ [=]]|(σ1 & t1 & t2 & [= <- <-] & H2 & ->)]%seq_inv.
    apply seq_inv in H2 as [[_ [=]]|(σ2 & t3 & t4 & [= <- <-] & H3 & ->)].
    apply handleDisconnection_trace in H3 as [_ H3].
    intros Hin Hty. exfalso. simpl in Hin.
    apply elem_of_cons in Hin as [[=]|Hin].
    apply elem_of_cons in Hin as [[=]|Hin].
    rewrite Forall_forall in H3. by apply H3 in Hin.
  - intros [= _ _ <-] [[= -> ->]|?%elem_of_nil]%elem_of_cons _; [|done].
    split; [done|]. split; [done|]. by exists cl.
Qed.

(** ** The delivery loop *)

Lemma deliverLoop_cons now live k l m excl :
  deliverLoop now live (k :: l) m excl
  = ((λ σ, if live k σ
           then (if differs k excl then sendToClient now k m else ret) σ
           else ret σ) >>> deliverLoop now live l m excl).
Proof. done. Qed.

Lemma deliverLoop_body_rel now R (live : string → Server → bool) k m excl σ cp σ' t :
  purgeClosed R →
  (if live k σ then (if differs k excl then sendToClient now k m else ret) σ else ret σ)
    = Some (cp, σ', t) → R σ σ'.
Proof.
  intros HR. destruct (live k σ), (differs k excl);
    try (destruct HR as (Hrefl & _); by intros [= _ <- _]).
  by apply sendToClient_rel.
Qed.

Lemma deliverLoop_body_normal now (live : string → Server → bool) k m excl σ cp σ' t :
  (if live k σ then (if differs k excl then sendToClient now k m else ret) σ else ret σ)
    = Some (cp, σ', t) → cp = Normal.
Proof.
  destruct (live k σ), (differs k excl); try by intros [= <- _ _].
  apply sendToClient_normal.
Qed.

Lemma deliverLoop_rel now R live l m excl σ cp σ' t :
  purgeClosed R → deliverLoop now live l m excl σ = Some (cp, σ', t) → R σ σ'.
Proof.
  intros HR. apply forEach_rel; [apply HR..|].
  intros k σ1 c1 σ2 t1. by apply deliverLoop_body_rel.
Qed.

Lemma deliverLoop_total now live l m excl σ :
  ∃ σ' t, deliverLoop now live l m excl σ = Some (Normal, σ', t).
Proof.
  destruct (forEach_total (λ _, True) l
    (λ k σ, if live k σ
            then (if differs k excl then sendToClient now k m else ret) σ
            else ret σ)) with (σ := σ) as (σ' & t & H & _); [|done|by eauto].
  intros k σ1 _. destruct (live k σ1), (differs k excl); try by eexists _, _.
  destruct (sendToClient_total now k m σ1) as (σ2 & t2 & ?). by exists σ2, t2.
Qed.

Lemma accepts_shrinks σ σ' d : registryShrinks σ σ' → accepts σ' d → accepts σ d.
Proof.
  intros Hsh (cl & Hg & Ho & Hs). exists cl. destruct (Hsh d) as [?|Hc]; [congruence|].
  by rewrite <- Hc.
Qed.

(** Whoever got the message was in the snapshot, was not the excluded
    connection, and accepts writes. *)
Lemma deliverLoop_sound now live l m excl σ cp σ' t d :
  type m ≠ USER_LEAVE →
  deliverLoop now live l m excl σ = Some (cp, σ', t) →
  WsSend d m ∈ t →
  d ∈ l ∧ differs d excl = true ∧ accepts σ d.
Proof.
  intros Hty. revert σ cp σ' t. induction l as [|k l IH]; intros σ cp σ' t.
  { by intros [= _ _ <-] ?%elem_of_nil. }
  rewrite deliverLoop_cons.
  assert (∀ cp1 σ1 t1,
    (if live k σ then (if differs k excl then sendToClient now k m else ret) σ else ret σ)
      = Some (cp1, σ1, t1) →
    WsSend d m ∈ t1 → d = k ∧ differs d excl = true ∧ accepts σ d) as Hbody.
  { intros cp1 σ1 t1. destruct (live k σ); [|by intros [= _ _ <-] ?%elem_of_nil].
    destruct (differs k excl) eqn:Hdf; [|by intros [= _ _ <-] ?%elem_of_nil].
    intros Hs Hin. destruct (sendToClient_delivered _ _ _ _ _ _ _ _ _ Hs Hin Hty)
      as (-> & _ & ?). done. }
  intros [[_ H]|(σ1 & t1 & t2 & H1 & H2 & ->)]%seq_inv Hin.
  - destruct (Hbody _ _ _ H Hin) as (-> & ? & ?). split; [left|]; done.
  - apply elem_of_app in Hin as [Hin|Hin].
    + destruct (Hbody _ _ _ H1 Hin) as (-> & ? & ?). split; [left|]; done.
    + destruct (IH _ _ _ _ H2 Hin) as (? & ? & Ha). split; [by right|]. split; [done|].
      eapply accepts_shrinks; [|done].
      eapply deliverLoop_body_rel; [apply registryShrinks_closed|done].
Qed.

(** Whoever is in the snapshot, is not excluded, accepts writes and stays
    live as long as it keeps its memberships gets the message. *)
Lemma deliverLoop_complete now live l m excl σ cp σ' t d :
  deliverLoop now live l m excl σ = Some (cp, σ', t) →
  d ∈ l → differs d excl = true → accepts σ d →
  (∀ σ1, keeps d σ σ1 → live d σ1 = true) →
  WsSend d m ∈ t.
Proof.
  intros Hloop Hin Hdf. revert σ cp σ' t Hloop.
  induction l as [|k l IH]; intros σ cp σ' t.
  { by apply elem_of_nil in Hin. }
  rewrite deliverLoop_cons.
  intros [[-> H]|(σ1 & t1 & t2 & H1 & H2 & ->)]%seq_inv Ha Hlive.
  { by apply deliverLoop_body_normal in H. }
  destruct (keeps_closed d) as (Hrefl & Htrans & _).
  apply elem_of_app. destruct (decide (d = k)) as [->|Hne].
  - left. rewrite (Hlive σ), Hdf in H1 by done.
    rewrite sendToClient_accepts in H1 by done. injection H1 as _ <-. by left.
  - right. apply elem_of_cons in Hin as [?|Hin]; [done|].
    assert (keeps d σ σ1) as Hk.
    { eapply deliverLoop_body_rel; [apply keeps_closed|done]. }
    eapply IH; eauto using keeps_accepts.
Qed.

(** ** The three broadcasts *)

Lemma broadcastToAll_loop now m excl σ :
  broadcastToAll now m excl σ
  = deliverLoop now (λ k σ', JsMap.has k (clients σ')) (JsMap.keys (clients σ)) m excl σ.
Proof.
  unfold broadcastToAll, broadcastToAll_via, Map_forEach, deliverLoop.
  apply forEach_ext. intros k σ'. unfold JsMap.has.
  by destruct (JsMap.get k (clients σ')).
Qed.

Lemma broadcastToRoom_loop now r m excl σ :
  broadcastToRoom now r m excl σ
  = match JsMap.get r (rooms σ) with
    | None => ret σ
    | Some _ =>
        deliverLoop now (λ k σ', JsSet.has k (membersOf r σ')) (membersOf r σ) m excl σ
    end.
Proof. done. Qed.

Lemma broadcastToUser_loop now u m excl σ :
  broadcastToUser now u m excl σ
  = match JsMap.get u (userSessions σ) with
    | None => ret σ
    | Some _ =>
        deliverLoop now (λ k σ', JsSet.has k (connectionsOf u σ')) (connectionsOf u σ) m excl σ
    end.
Proof. done. Qed.

Lemma accepts_registered σ d : accepts σ d → d ∈ JsMap.keys (clients σ).
Proof. intros (cl & Hg & _). apply get_is_Some_keys. eauto. Qed.

Lemma broadcastToAll_delivery now m excl σ :
  type m ≠ USER_LEAVE →
  ∃ σ' t, broadcastToAll now m excl σ = Some (Normal, σ', t)
          ∧ ∀ d, WsSend d m ∈ t ↔ differs d excl = true ∧ accepts σ d.
Proof.
  intros Hty. rewrite broadcastToAll_loop.
  destruct (deliverLoop_total now (λ k σ', JsMap.has k (clients σ'))
              (JsMap.keys (clients σ)) m excl σ) as (σ' & t & Hl).
  exists σ', t. split; [done|]. intros d. split.
  - intros Hin. by destruct (deliverLoop_sound _ _ _ _ _ _ _ _ _ _ Hty Hl Hin) as (_ & ? & ?).
  - intros [Hdf Ha]. eapply deliverLoop_complete; eauto using accepts_registered.
    intros σ1 Hk. destruct (Hk Ha) as (Hg & _). unfold JsMap.has. rewrite Hg.
    by destruct Ha as (cl & -> & _).
Qed.

Lemma broadcastToRoom_delivery now r m excl σ :
  type m ≠ USER_LEAVE →
  ∃ σ' t, broadcastToRoom now r m excl σ = Some (Normal, σ', t)
          ∧ ∀ d, WsSend d m ∈ t ↔
                 d ∈ membersOf r σ ∧ differs d excl = true ∧ accepts σ d.
Proof.
  intros Hty. rewrite broadcastToRoom_loop.
  destruct (JsMap.get r (rooms σ)) as [s|] eqn:Hg.
  - destruct (deliverLoop_total now (λ k σ', JsSet.has k (membersOf r σ'))
                (membersOf r σ) m excl σ) as (σ' & t & Hl).
    exists σ', t. split; [done|]. intros d. split.
    + intros Hin. by eapply deliverLoop_sound.
    + intros (Hm & Hdf & Ha). eapply deliverLoop_complete; eauto.
      intros σ1 Hk. destruct (Hk Ha) as (_ & Hr & _). by apply set_has_true, Hr.
  - exists σ, []. split; [done|]. intros d. unfold membersOf. rewrite Hg. simpl.
    split; [by intros ?%elem_of_nil|by intros [?%elem_of_nil _]].
Qed.

Lemma broadcastToUser_delivery now u m excl σ :
  type m ≠ USER_LEAVE →
  ∃ σ' t, broadcastToUser now u m excl σ = Some (Normal, σ', t)
          ∧ ∀ d, WsSend d m ∈ t ↔
                 d ∈ connectionsOf u σ ∧ differs d excl = true ∧ accepts σ d.
Proof.
  intros Hty. rewrite broadcastToUser_loop.
  destruct (JsMap.get u (userSessions σ)) as [s|] eqn:Hg.
  - destruct (deliverLoop_total now (λ k σ', JsSet.has k (connectionsOf u σ'))
                (connectionsOf u σ) m excl σ) as (σ' & t & Hl).
    exists σ', t. split; [done|]. intros d. split.
    + intros Hin. by eapply deliverLoop_sound.
    + intros (Hm & Hdf & Ha). eapply deliverLoop_complete; eauto.
      intros σ1 Hk. destruct (Hk Ha) as (_ & _ & Hu). by apply set_has_true, Hu.
  - exists σ, []. split; [done|]. intros d. unfold connectionsOf. rewrite Hg. simpl.
    split; [by intros ?%elem_of_nil|by intros [?%elem_of_nil _]].
Qed.

(** [targetUsers.forEach(userId => this.broadcastToUser(userId, ...))] *)
Lemma broadcastToUsers_delivery now us m excl σ :
  type m ≠ USER_LEAVE →
  ∃ σ' t, forEach us (λ u, broadcastToUser now u m excl) σ = Some (Normal, σ', t)
          ∧ ∀ d, WsSend d m ∈ t ↔
                 (∃ u, u ∈ us ∧ d ∈ connectionsOf u σ)
                 ∧ differs d excl = true ∧ accepts σ d.
Proof.
  intros Hty. revert σ. induction us as [|u us IH]; intros σ.
  { exists σ, []. split; [done|]. intros d. split; [by intros ?%elem_of_nil|].
    by intros [(u & ?%elem_of_nil & _) _]. }
  destruct (broadcastToUser_delivery now u m excl σ Hty) as (σ1 & t1 & H1 & D1).
  destruct (IH σ1) as (σ2 & t2 & H2 & D2).
  exists σ2, (t1 ++ t2). split; [by eapply seq_run|].
  assert (registryShrinks σ σ1) as Hsh
    by (eapply broadcastToUser_rel; [apply registryShrinks_closed|done]).
  assert (indexShrinks σ σ1) as [_ Hix]
    by (eapply broadcastToUser_rel; [apply indexShrinks_closed|done]).
  intros d. rewrite elem_of_app, D1, D2. split.
  - intros [(Hm & Hdf & Ha)|((u' & Hu' & Hm) & Hdf & Ha)].
    + split; [|done]. exists u. split; [left|done].
    + split; [|eauto using accepts_shrinks]. exists u'. split; [by right|auto].
  - intros ((u' & Hu' & Hm) & Hdf & Ha).
    assert (keeps d σ σ1) as Hk
      by (eapply broadcastToUser_rel; [apply keeps_closed|done]).
    apply elem_of_cons in Hu' as [->|Hu']; [by left|right].
    destruct (Hk Ha) as (_ & _ & Hku).
    split; [|eauto using keeps_accepts]. exists u'. auto.
Qed.

(** ** Reachable states *)

Lemma run_reachable schedule σ cp σ' t :
  reachable σ → run schedule σ = Some (cp, σ', t) → reachable σ'.
Proof.
  revert σ cp σ' t. induction schedule as [|[now e] rest IH]; intros σ cp σ' t Hσ; simpl.
  - by intros [= _ <- _].
  - intros [[_ H]|(σ1 & t1 & t2 & H1 & H2 & _)]%seq_inv.
    + by eapply reachable_step.
    + eapply IH; [|done]. by eapply reachable_step.
Qed.

Lemma stateAfter_reachable schedule : reachable (stateAfter schedule).
Proof.
  unfold stateAfter. destruct (run schedule newServer) as [[[cp σ] t]|] eqn:Hrun.
  - eapply run_reachable; [apply reachable_new|done].
  - apply reachable_new.
Qed.

(** * The router, the sweep and the timers *)

(** ** EVENT_BROADCAST *)

(** C1 (as amended).  Handling an EVENT_BROADCAST always completes.  The
    message that wraps [eventType], [eventPayload] and the sender's
    identifier is written to a connection exactly when that connection is
    not the sender, accepts writes (delivery is best effort: registered,
    transport open, [send] returns), and is a member of the room at the
    moment of dispatch when the payload names a room with a non-empty name.
    When the payload has no room, or the room name is the empty string, the
    message goes to every other registered connection that accepts writes. *)
Theorem event_broadcast_delivery now sender p σ :
  ∃ σ' t,
    handleEventBroadcast now sender (Some p) σ = Some (Normal, σ', t)
    ∧ (∀ r, p_room p = Some r → r ≠ "" →
         ∀ d, WsSend d (eventBroadcastMessage now sender p) ∈ t ↔
              d ∈ membersOf r σ ∧ d ≠ sender ∧ accepts σ d)
    ∧ (p_room p = None ∨ p_room p = Some "" →
         ∀ d, WsSend d (eventBroadcastMessage now sender p) ∈ t ↔
              d ≠ sender ∧ accepts σ d).
Proof.
  assert (∀ d : string, differs d (Some sender) = true ↔ d ≠ sender) as Hdf.
  { intros d. simpl. rewrite negb_true_iff, bool_decide_eq_false. done. }
  unfold handleEventBroadcast. fold (eventBroadcastMessage now sender p).
  destruct (p_room p) as [r|] eqn:Hr.
  - unfold truthy. case_bool_decide as He; simpl.
    + subst r.
      destruct (broadcastToAll_delivery now (eventBroadcastMessage now sender p)
                  (Some sender) σ) as (σ' & t & H & D); [done|].
      exists σ', t. split; [done|]. split; [by intros r [= <-] ?|].
      intros _ d. by rewrite D, Hdf.
    + destruct (broadcastToRoom_delivery now r (eventBroadcastMessage now sender p)
                  (Some sender) σ) as (σ' & t & H & D); [done|].
      exists σ', t. split; [done|]. split.
      * intros r' [= <-] _ d. by rewrite D, Hdf.
      * intros [[=]|[= ->]]. done.
  - destruct (broadcastToAll_delivery now (eventBroadcastMessage now sender p)
                (Some sender) σ) as (σ' & t & H & D); [done|].
    exists σ', t. split; [done|]. split; [by intros r [=]|].
    intros _ d. by rewrite D, Hdf.
Qed.

(** Scenario A of the specification: A and B are in "global", A broadcasts
    there; B gets the event and A gets nothing for its own message. *)
Lemma event_broadcast_delivery_witness :
  ∃ σ' t,
    handleEventBroadcast 7 idA (Some (eventPayloadFor (Some "global"))) globalRoomServer
      = Some (Normal, σ', t)
    ∧ WsSend idB (eventBroadcastMessage 7 idA (eventPayloadFor (Some "global"))) ∈ t
    ∧ WsSend idA (eventBroadcastMessage 7 idA (eventPayloadFor (Some "global"))) ∉ t.
Proof.
  destruct (event_broadcast_delivery 7 idA (eventPayloadFor (Some "global")) globalRoomServer)
    as (σ' & t & H & Hroom & _).
  exists σ', t. split; [exact H|].
  pose proof (Hroom "global" eq_refl ltac:(discriminate)) as D. split.
  - apply D. split; [vm_compute; right; left|].
    split; [discriminate|].
    eexists. split; [vm_compute; reflexivity|]. split; reflexivity.
  - intros Hin. apply D in Hin as (_ & Hne & _). by apply Hne.
Defined.

(** C1, counterexample.  A and B are the members of the room named "" and C
    is in no room.  A broadcasts to room "": the payload carries a room, yet
    C, which is not a member of it, receives the event. *)
Lemma event_broadcast_unnamed_room_reaches_outsider :
  reachable unnamedRoomServer
  ∧ p_room (eventPayloadFor (Some "")) = Some ""
  ∧ membersOf "" unnamedRoomServer = [idA; idB]
  ∧ ∃ σ' t,
      handleEventBroadcast 7 idA (Some (eventPayloadFor (Some ""))) unnamedRoomServer
        = Some (Normal, σ', t)
      ∧ WsSend idC (eventBroadcastMessage 7 idA (eventPayloadFor (Some ""))) ∈ t
      ∧ ¬ (idC ∈ membersOf "" unnamedRoomServer ∧ idC ≠ idA).
Proof.
  split; [apply (stateAfter_reachable unnamedRoomSchedule)|].
  split; [reflexivity|]. split; [reflexivity|].
  eexists _, _. split; [vm_compute; reflexivity|]. split.
  - right. left.
  - intros [Hin _]. vm_compute in Hin.
    apply elem_of_cons in Hin as [[=]|Hin].
    apply elem_of_cons in Hin as [[=]|Hin].
    by apply elem_of_nil in Hin.
Qed.

(** ** STATE_SYNC *)

(** C2.  Handling a STATE_SYNC always completes.  The re-tagged message is
    written to a connection exactly when that connection is in the resolved
    target set and accepts writes (delivery is best effort).  The target set
    is the union of the session sets of the listed users when [targetUsers]
    is a non-empty list and every registered connection otherwise, minus the
    sender when [excludeSelf] is true or missing. *)
Theorem state_sync_delivery now sender p σ :
  ∃ σ' t,
    handleStateSync now sender (Some p) σ = Some (Normal, σ', t)
    ∧ ∀ d, WsSend d (stateSyncMessage now sender p) ∈ t ↔
           match p_targetUsers p with
           | Some (u :: us) => ∃ user, user ∈ u :: us ∧ d ∈ connectionsOf user σ
           | _ => d ∈ JsMap.keys (clients σ)
           end
           ∧ (default true (p_excludeSelf p) = true → d ≠ sender)
           ∧ accepts σ d.
Proof.
  unfold handleStateSync. fold (stateSyncMessage now sender p).
  set (excl := if default true (p_excludeSelf p) then Some sender else None).
  assert (∀ d : string, differs d excl = true ↔
                        (default true (p_excludeSelf p) = true → d ≠ sender)) as Hdf.
  { intros d. unfold excl. destruct (default true (p_excludeSelf p)); simpl.
    - rewrite negb_true_iff, bool_decide_eq_false. naive_solver.
    - naive_solver. }
  assert (∃ σ' t, broadcastToAll now (stateSyncMessage now sender p) excl σ
                    = Some (Normal, σ', t)
            ∧ ∀ d, WsSend d (stateSyncMessage now sender p) ∈ t ↔
                   d ∈ JsMap.keys (clients σ)
                   ∧ (default true (p_excludeSelf p) = true → d ≠ sender)
                   ∧ accepts σ d) as Hall.
  { destruct (broadcastToAll_delivery now (stateSyncMessage now sender p) excl σ)
      as (σ' & t & H & D); [done|].
    exists σ', t. split; [done|]. intros d. rewrite D, Hdf.
    split; [|tauto]. intros [? ?]. eauto using accepts_registered. }
  destruct (p_targetUsers p) as [[|u us]|]; [done| |done].
  destruct (broadcastToUsers_delivery now (u :: us) (stateSyncMessage now sender p) excl σ)
    as (σ' & t & H & D); [done|].
  exists σ', t. split; [done|]. intros d. by rewrite D, Hdf.
Qed.

(** Scenario C of the specification: A and B are bound to "u1"; a
    STATE_SYNC from A to ["u1"] with [excludeSelf] reaches B, not A, and not
    C, which is bound to another user. *)
Lemma state_sync_delivery_witness :
  ∃ σ' t,
    handleStateSync 7 idA (Some (statePayloadFor (Some ["u1"]) (Some true))) sharedUserServer
      = Some (Normal, σ', t)
    ∧ WsSend idB (stateSyncMessage 7 idA (statePayloadFor (Some ["u1"]) (Some true))) ∈ t
    ∧ WsSend idA (stateSyncMessage 7 idA (statePayloadFor (Some ["u1"]) (Some true))) ∉ t.
Proof.
  destruct (state_sync_delivery 7 idA (statePayloadFor (Some ["u1"]) (Some true))
              sharedUserServer) as (σ' & t & H & D).
  exists σ', t. split; [exact H|]. split.
  - apply D. split; [|split].
    + exists "u1". split; [left|]. vm_compute. right. left.
    + discriminate.
    + eexists. split; [vm_compute; reflexivity|]. split; reflexivity.
  - intros Hin. apply D in Hin as (_ & Hne & _). by apply Hne.
Defined.

(** ** The inactivity sweep *)

Lemma cleanup_body_post now k σ cp σ' t :
  match JsMap.get k (clients σ) with
  | Some client =>
      (if (now - lastActivity client >? timeout)%Z
       then emit (LogCleanup k) >>> handleDisconnection now k else ret) σ
  | None => ret σ
  end = Some (cp, σ', t) →
  cp = Normal ∧ registryShrinks σ σ' ∧ announced now σ σ' t.
Proof.
  destruct (shrinks_announced_comp now) as [Hnil Happ].
  destruct (JsMap.get k (clients σ)) as [cl|]; [|intros [= <- <- <-]; apply Hnil].
  destruct (now - lastActivity cl >? timeout)%Z; [|intros [= <- <- <-]; apply Hnil].
  intros [[_ [=]]|(σ1 & t1 & t2 & [= <- <-] & H2 & ->)]%seq_inv.
  split; [by eapply handleDisconnection_normal|].
  split; [by eapply handleDisconnection_shrinks|].
  intros c cl0 Hg Hn d cl' Hd Ho. right.
  by eapply handleDisconnection_announced.
Qed.

Lemma cleanup_post now σ cp σ' t :
  cleanupInactiveClients now σ = Some (cp, σ', t) →
  cp = Normal ∧ registryShrinks σ σ' ∧ announced now σ σ' t.
Proof.
  unfold cleanupInactiveClients, Map_forEach.
  apply (forEach_post (λ σ c σ' t, c = Normal ∧ registryShrinks σ σ' ∧ announced now σ σ' t)).
  - apply shrinks_announced_comp.
  - intros k σ1 c1 σ2 t1. apply cleanup_body_post.
Qed.

Lemma cleanup_total now σ :
  ∃ σ' t, cleanupInactiveClients now σ = Some (Normal, σ', t).
Proof.
  unfold cleanupInactiveClients, Map_forEach.
  cut (∃ σ' t,
         forEach (JsMap.keys (clients σ))
           (λ k σ', match JsMap.get k (clients σ') with
                    | Some client =>
                        (if (now - lastActivity client >? timeout)%Z
                         then emit (LogCleanup k) >>> handleDisconnection now k
                         else ret) σ'
                    | None => ret σ'
                    end) σ = Some (Normal, σ', t) ∧ True).
  { intros (σ' & t & H & _). eauto. }
  apply (forEach_total (λ _, True)); [|done].
  intros k σ1 _. simpl. destruct (JsMap.get k (clients σ1)) as [cl|]; [|by exists σ1, []].
  destruct (now - lastActivity cl >? timeout)%Z; [|by exists σ1, []].
  destruct (handleDisconnection_total now k σ1) as (σ2 & t2 & H & _).
  exists σ2, ([LogCleanup k] ++ t2). split; [|done]. by eapply seq_run.
Qed.

(** No connection that was inactive when the sweep started survives it. *)
Lemma cleanup_removes now σ cp σ' t c cl :
  cleanupInactiveClients now σ = Some (cp, σ', t) →
  JsMap.get c (clients σ) = Some cl →
  (now - lastActivity cl > timeout)%Z →
  JsMap.get c (clients σ') = None.
Proof.
  intros Hrun Hg Hidle.
  assert (c ∈ JsMap.keys (clients σ)) as Hin by (apply get_is_Some_keys; eauto).
  assert (JsMap.get c (clients σ) = None ∨ JsMap.get c (clients σ) = Some cl) as Hc by auto.
  unfold cleanupInactiveClients, Map_forEach in Hrun.
  revert Hin Hrun Hc. clear Hg. generalize (JsMap.keys (clients σ)) as l.
  intros l. revert σ cp t. induction l as [|k l IH]; intros σ cp t Hin; simpl.
  { by apply elem_of_nil in Hin. }
  intros [[-> H]|(σ1 & t1 & t2 & H1 & H2 & ->)]%seq_inv Hc.
  { by apply cleanup_body_post in H as [? _]. }
  pose proof (cleanup_body_post _ _ _ _ _ _ H1) as (_ & Hsh1 & _).
  assert (registryShrinks σ1 σ') as Hsh2.
  { refine (forEach_rel registryShrinks _ _ _ _ _ _ _ _ _ H2);
      try apply registryShrinks_closed.
    intros k' σa ca σb tb Hb. by apply cleanup_body_post in Hb as (_ & ? & _). }
  destruct (decide (c = k)) as [<-|Hne].
  - assert (JsMap.get c (clients σ1) = None) as Hgone.
    { destruct Hc as [Hc|Hc]; rewrite Hc in H1.
      - injection H1 as <- _. done.
      - rewrite (proj2 (Z.gtb_gt _ _)) in H1 by lia.
        apply seq_inv in H1 as [[[=] _]|(σa & ta & tb & [= <- <-] & Hd & _)].
        by eapply handleDisconnection_removes. }
    destruct (Hsh2 c) as [?|Heq]; [done|]. by rewrite Heq.
  - apply elem_of_cons in Hin as [?|Hin]; [done|].
    eapply IH; eauto. destruct (Hsh1 c) as [?|Heq]; [by left|]. by rewrite Heq.
Qed.

Lemma cleanup_purged now σ cp σ' t :
  cleanupInactiveClients now σ = Some (cp, σ', t) → purged σ σ'.
Proof.
  intros H.
  apply (forEach_post (λ σ c σ' _, c = Normal ∧ registryShrinks σ σ' ∧ indexShrinks σ σ'
                                   ∧ purged σ σ')) in H; [tauto|apply purged_comp|].
  intros k σ1 c1 σ2 t1.
  destruct (JsMap.get k (clients σ1)) as [cl|]; [|intros [= <- <- <-]; apply purged_comp].
  destruct (now - lastActivity cl >? timeout)%Z; [|intros [= <- <- <-]; apply purged_comp].
  intros [[_ [=]]|(σa & ta & tb & [= <- <-] & Hd & _)]%seq_inv.
  split; [by eapply handleDisconnection_normal|].
  split; [by eapply handleDisconnection_shrinks|].
  split; [by eapply handleDisconnection_fuel_index|by eapply handleDisconnection_fuel_purged].
Qed.

(** C6.  The sweep always completes.  A connection that is registered when
    it runs and whose last activity is more than [5 * 60 * 1000] ms old is
    no longer registered afterwards and, as after any disconnect, is in no
    room and not in the session set of its user; and the USER_LEAVE message
    with its connection identifier and its user identifier has been written
    to every connection that is still registered, with an open transport,
    when the sweep is over. *)
Theorem sweep_evicts_inactive now σ c cl :
  JsMap.get c (clients σ) = Some cl →
  (now - lastActivity cl > 5 * 60 * 1000)%Z →
  ∃ σ' t,
    cleanupInactiveClients now σ = Some (Normal, σ', t)
    ∧ JsMap.get c (clients σ') = None
    ∧ (∀ r, c ∉ membersOf r σ')
    ∧ (∀ u, userId cl = Some u → u ≠ "" → c ∉ connectionsOf u σ')
    ∧ ∀ d cl', JsMap.get d (clients σ') = Some cl' → isOpen (ws cl') = true →
        WsSend d {| type := USER_LEAVE; payload := LeavePayload c (userId cl);
                    timestamp := now; clientId := None |} ∈ t.
Proof.
  intros Hg Hidle. destruct (cleanup_total now σ) as (σ' & t & Hrun).
  exists σ', t. split; [done|].
  assert (JsMap.get c (clients σ') = None) as Hgone by by eapply cleanup_removes.
  split; [done|].
  destruct (cleanup_purged _ _ _ _ _ Hrun c cl Hg Hgone) as [Hr Hu].
  split; [done|]. split; [done|]. intros d cl' Hd Ho.
  apply cleanup_post in Hrun as (_ & _ & Hann). by eapply (Hann c cl).
Qed.

(** At time 400000 the connection that last spoke at time 1 is swept; the
    one that spoke at 200000 stays and is told. *)
Lemma sweep_evicts_inactive_witness :
  ∃ σ' t,
    cleanupInactiveClients 400000 idleServer = Some (Normal, σ', t)
    ∧ JsMap.get idleId (clients σ') = None
    ∧ (∀ r, idleId ∉ membersOf r σ')
    ∧ (∀ u, Some "u1" = Some u → u ≠ "" → idleId ∉ connectionsOf u σ')
    ∧ ∀ d cl', JsMap.get d (clients σ') = Some cl' → isOpen (ws cl') = true →
        WsSend d {| type := USER_LEAVE; payload := LeavePayload idleId (Some "u1");
                    timestamp := 400000; clientId := None |} ∈ t.
Proof.
  apply (sweep_evicts_inactive 400000 idleServer idleId idleClient).
  - vm_compute. reflexivity.
  - vm_compute. reflexivity.
Defined.

(** ** Failed sends *)

Lemma writesRegistered_comp :
  compositional (λ σ c σ' t, c = Normal ∧ registryShrinks σ σ' ∧ writesRegistered σ t).
Proof.
  destruct registryShrinks_closed as (Hrefl & Htrans & _). split.
  - intros σ. split; [done|]. split; [done|].
    by intros d m [?%elem_of_nil|?%elem_of_nil].
  - intros σ1 σ2 σ3 c t1 t2 (_ & S1 & W1) (-> & S2 & W2).
    split; [done|]. split; [eauto|].
    intros d m Hin.
    assert ((WsSend d m ∈ t1 ∨ WsSendThrew d m ∈ t1)
            ∨ (WsSend d m ∈ t2 ∨ WsSendThrew d m ∈ t2)) as [H1|H2]
      by (rewrite !elem_of_app in Hin; tauto).
    + eauto.
    + destruct (W2 _ _ H2) as [cl Hcl]. destruct (S1 d) as [?|Heq]; [congruence|].
      rewrite <- Heq. eauto.
Qed.

Lemma writesRegistered_one σ (d : string) cl (e : Effect) :
  JsMap.get d (clients σ) = Some cl →
  (∀ d' m, e = WsSend d' m ∨ e = WsSendThrew d' m → d' = d) →
  writesRegistered σ [e].
Proof.
  intros Hg He d' m Hin. rewrite !list_elem_of_singleton in Hin.
  assert (d' = d) as -> by (destruct Hin as [<-|<-]; eauto). eauto.
Qed.

(** The disconnect procedure for [c] writes to connections that were
    registered beside [c], never to [c] itself. *)
Lemma handleDisconnection_fuel_writes now fuel c σ cp σ' t :
  handleDisconnection_fuel now fuel c σ = Some (cp, σ', t) →
  ∀ d m, WsSend d m ∈ t ∨ WsSendThrew d m ∈ t →
         d ≠ c ∧ is_Some (JsMap.get d (clients σ)).
Proof.
  revert c σ cp σ' t. induction fuel as [|fuel IH]; intros c σ cp σ' t; simpl;
    (destruct (JsMap.get c (clients σ)) as [cl|] eqn:Hg;
     [|by intros [= <- <- <-] d m [?%elem_of_nil|?%elem_of_nil]]); [done|].
  intros [[_ [=]]|(σ1 & t1 & t2 & [= <- <-] & H2 & ->)]%seq_inv.
  apply seq_inv in H2 as [[_ [=]]|(σ2 & t3 & t4 & [= <- <-] & H3 & ->)].
  apply (broadcastToAll_via_post _
           (λ σ c σ' t, c = Normal ∧ registryShrinks σ σ' ∧ writesRegistered σ t))
    in H3 as (_ & _ & W).
  - intros d m Hin. simpl in Hin.
    assert (WsSend d m ∈ t4 ∨ WsSendThrew d m ∈ t4) as Hin'.
    { rewrite !elem_of_cons in Hin. naive_solver. }
    apply W in Hin' as [cl' Hcl']. rewrite clients_purge in Hcl'.
    case_decide; [done|]. eauto.
  - apply writesRegistered_comp.
  - intros σ0 c0 cl0 Hg0. split; [done|]. split; [apply registryShrinks_closed|].
    eapply writesRegistered_one; [done|]. naive_solver.
  - intros σ0 c0 cl0 Hg0. split; [done|]. split; [apply registryShrinks_closed|].
    eapply writesRegistered_one; [done|]. naive_solver.
  - intros σ0 c0. split; [done|]. split; [apply registryShrinks_closed|].
    intros d m Hin. rewrite !list_elem_of_singleton in Hin. naive_solver.
  - intros c0 σ0 cl0 cp0 σ0' t0 _ _ _ Hd.
    split; [by apply handleDisconnection_fuel_trace in Hd as [? _]|].
    split; [by eapply handleDisconnection_fuel_shrinks|].
    intros d m Hin. by eapply IH.
Qed.

(** C5 (as amended).  For a registered connection, a send whose write throws
    runs the disconnect procedure at once: the connection is gone from the
    registry when the send returns, and nothing else is written to it, so
    the message is neither retried nor kept.  A send to a connection whose
    transport is not open writes nothing and changes nothing: the connection
    stays registered.  A send to an open transport whose write returns
    writes the message once and changes nothing. *)
Theorem send_failure_handling now c m σ cl :
  JsMap.get c (clients σ) = Some cl →
  (isOpen (ws cl) = true → sendThrows (ws cl) = true →
     ∃ σ' t',
       sendToClient now c m σ = Some (Normal, σ', WsSendThrew c m :: ErrorSend c :: t')
       ∧ handleDisconnection now c σ = Some (Normal, σ', t')
       ∧ JsMap.get c (clients σ') = None
       ∧ ∀ m', (WsSend c m' ∉ t') ∧ (WsSendThrew c m' ∉ t'))
  ∧ (isOpen (ws cl) = false → sendToClient now c m σ = Some (Normal, σ, []))
  ∧ (isOpen (ws cl) = true → sendThrows (ws cl) = false →
       sendToClient now c m σ = Some (Normal, σ, [WsSend c m])).
Proof.
  intros Hg. unfold sendToClient, sendToClient_via. rewrite Hg.
  split; [|split].
  - intros -> ->. simpl.
    destruct (handleDisconnection_total now c σ) as (σ' & t' & Hd & _).
    exists σ', t'. split.
    { unfold seq, emit. by rewrite Hd. }
    split; [done|]. split; [by eapply handleDisconnection_removes|].
    intros m'. split; intros Hin;
      eapply (handleDisconnection_fuel_writes now _ c σ) in Hd as [Hne _];
      eauto.
  - by intros ->.
  - by intros -> ->.
Qed.

(** Writes to A throw: a send to A disconnects it on the spot, and B is
    told. *)
Lemma send_failure_handling_witness :
  ∃ σ' t',
    sendToClient 9 idA (pingMessage 9) brokenServer
      = Some (Normal, σ', WsSendThrew idA (pingMessage 9) :: ErrorSend idA :: t')
    ∧ handleDisconnection 9 idA brokenServer = Some (Normal, σ', t')
    ∧ JsMap.get idA (clients σ') = None
    ∧ ∀ m', (WsSend idA m' ∉ t') ∧ (WsSendThrew idA m' ∉ t').
Proof.
  eapply (send_failure_handling 9 idA (pingMessage 9) brokenServer).
  - vm_compute. reflexivity.
  - reflexivity.
  - reflexivity.
Defined.

(** C5, counterexample.  The transport of A is closing, so the send does
    not go out; yet A is still registered afterwards and no disconnect
    procedure has run (the state is unchanged, nothing is logged or
    announced). *)
Lemma send_to_closing_transport_keeps_connection :
  reachable closingServer
  ∧ JsMap.get idA (clients closingServer) = Some closingClient
  ∧ isOpen (ws closingClient) = false
  ∧ sendToClient 9 idA (pingMessage 9) closingServer = Some (Normal, closingServer, [])
  ∧ is_Some (JsMap.get idA (clients closingServer)).
Proof.
  split; [apply (stateAfter_reachable closingSchedule)|].
  split; [reflexivity|]. split; [reflexivity|]. split; [reflexivity|].
  vm_compute. eauto.
Qed.

(** ** The heartbeat timer *)

Lemma handleDisconnection_timers now c σ cp σ' t :
  handleDisconnection now c σ = Some (cp, σ', t) →
  timers σ' = timers σ ∧ nextTimer σ' = nextTimer σ.
Proof.
  destruct (JsMap.get c (clients σ)) as [cl|] eqn:Hg.
  - intros Hd. by apply (handleDisconnection_rel _ timersUnchanged _ _ cl) in Hd;
      [|apply timersUnchanged_closed|].
  - rewrite handleDisconnection_unregistered by done. by intros [= _ <- _].
Qed.

Lemma timerClient_clearInterval h σ : timerClient h (clearInterval h σ) = None.
Proof.
  unfold timerClient, clearInterval. simpl.
  rewrite list_filter_filter.
  replace (filter _ (timers σ)) with (@nil (nat * string)); [done|].
  symmetry. induction (timers σ) as [|hc l IH]; [done|].
  rewrite filter_cons. case_decide; [naive_solver|done].
Qed.

(** C7 (as amended).  Removing a connection does not cancel its heartbeat
    timer: the disconnect procedure leaves the scheduled intervals as they
    are.  The timer cancels itself at its next firing: a firing whose
    connection is no longer registered, or whose transport is not open,
    clears the interval and sends nothing; only a firing that finds the
    connection registered and open sends the ping. *)
Theorem heartbeat_timer_cancels_itself now :
  (∀ c σ cp σ' t,
     handleDisconnection now c σ = Some (cp, σ', t) → timers σ' = timers σ)
  ∧ (∀ h c σ,
       timerClient h σ = Some c →
       (JsMap.get c (clients σ) = None
        ∨ ∃ cl, JsMap.get c (clients σ) = Some cl ∧ isOpen (ws cl) = false) →
       heartbeatTick now h σ = Some (Normal, clearInterval h σ, [])
       ∧ timerClient h (clearInterval h σ) = None
       ∧ clients (clearInterval h σ) = clients σ)
  ∧ (∀ h c cl σ,
       timerClient h σ = Some c →
       JsMap.get c (clients σ) = Some cl → isOpen (ws cl) = true →
       heartbeatTick now h σ = sendToClient now c (pingMessage now) σ).
Proof.
  split; [|split].
  - intros c σ cp σ' t Hd. by apply handleDisconnection_timers in Hd as [? _].
  - intros h c σ Ht Hc. unfold heartbeatTick. rewrite Ht.
    split; [|split; [apply timerClient_clearInterval|done]].
    destruct Hc as [->|(cl & -> & ->)]; done.
  - intros h c cl σ Ht Hg Ho. unfold heartbeatTick. by rewrite Ht, Hg, Ho.
Qed.

(** The interval of the connection that closed at time 2 fires at time
    30001: it finds the registry without its connection and clears itself. *)
Lemma heartbeat_timer_cancels_itself_witness :
  heartbeatTick 30001 0 closedServer = Some (Normal, clearInterval 0 closedServer, [])
  ∧ timerClient 0 (clearInterval 0 closedServer) = None
  ∧ clients (clearInterval 0 closedServer) = clients closedServer.
Proof.
  apply (proj1 (proj2 (heartbeat_timer_cancels_itself 30001)) 0 idA closedServer).
  - reflexivity.
  - left. reflexivity.
Defined.

(** C7, counterexample.  The connection accepted at time 1 is removed from
    the registry when its socket closes at time 2, and its heartbeat
    interval is still scheduled after the removal. *)
Lemma heartbeat_timer_outlives_connection :
  run closedSchedule newServer
    = Some (Normal, closedServer,
            [LogConnected idA 1;
             WsSend idA {| type := USER_JOIN; payload := JoinPayload idA "session_1";
                           timestamp := 1; clientId := None |};
             LogDisconnected idA 0])
  ∧ JsMap.get idA (clients closedServer) = None
  ∧ timerClient 0 closedServer = Some idA.
Proof. split; [vm_compute; reflexivity|]. split; reflexivity. Qed.

(** ** Frames that are not messages *)

Lemma keys_set_present {V} k (v v' : V) m :
  JsMap.get k m = Some v' → JsMap.keys (JsMap.set k v m) = JsMap.keys m.
Proof.
  unfold JsMap.keys. induction m as [|[k0 v0] m IH]; [done|].
  cbn [JsMap.get JsMap.set]. case_decide; [by subst|].
  intros Hg. rewrite !fmap_cons. f_equal. by apply IH.
Qed.

Lemma keys_updateClient c f cs :
  JsMap.keys (updateClient c f cs) = JsMap.keys cs.
Proof.
  unfold updateClient. destruct (JsMap.get c cs) eqn:Hg; [|done].
  by eapply keys_set_present.
Qed.

Lemma get_updateClient k c f cs :
  JsMap.get k (updateClient c f cs)
  = if decide (k = c) then f <$> JsMap.get c cs else JsMap.get k cs.
Proof.
  unfold updateClient. destruct (JsMap.get c cs) as [cl|] eqn:Hg.
  - rewrite get_set. by case_decide.
  - case_decide; subst; [by rewrite Hg|done].
Qed.

(** C9.  A frame from a registered connection that does not parse, parses
    to [null], or carries a type tag that is missing or not one of the seven
    tags is dropped: the callback completes normally (nothing is thrown at
    the socket or the server), the only effect is one log entry
    ([console.warn] for the unknown tag, [console.error] for the frame that
    could not be read), nothing is written to any connection, and the
    sender is still registered; the membership indexes are unchanged and the
    registry changes at most in the sender's last-activity time. *)
Theorem unrecognized_frame_dropped now c data σ cl :
  JsMap.get c (clients σ) = Some cl →
  unrecognized data →
  ∃ σ' t,
    onMessage now c data σ = Some (Normal, σ', t)
    ∧ t = match data with
          | ParsedMessage m => [WarnUnknownType (in_type m)]
          | _ => [ErrorParse c]
          end
    ∧ (∀ d m, (WsSend d m ∉ t) ∧ (WsSendThrew d m ∉ t))
    ∧ is_Some (JsMap.get c (clients σ'))
    ∧ JsMap.keys (clients σ') = JsMap.keys (clients σ)
    ∧ rooms σ' = rooms σ ∧ userSessions σ' = userSessions σ.
Proof.
  intros Hg Hun.
  assert (is_Some (JsMap.get c (clients (setClients (updateClient c (withLastActivity now)) σ))))
    as Htouch.
  { simpl. rewrite get_updateClient, decide_True, Hg by done. eauto. }
  destruct data as [| |m]; unfold onMessage, tryCatch, handleMessage; simpl.
  - exists σ, [ErrorParse c]. split; [done|]. split; [done|].
    split; [|by eauto].
    intros d m. split; intros [[=]|?%elem_of_nil]%elem_of_cons; done.
  - rewrite Hg. simpl.
    eexists _, [ErrorParse c]. split; [done|]. split; [done|].
    split; [|split; [exact Htouch|]].
    + intros d m. split; intros [[=]|?%elem_of_nil]%elem_of_cons; done.
    + simpl. by rewrite keys_updateClient.
  - rewrite Hg. simpl in Hun.
    assert (∀ tag, tag ∈ recognizedTags → bool_decide (in_type m = Some tag) = false) as Hno.
    { intros tag Hin. apply bool_decide_eq_false. intros Heq. by apply (Hun tag). }
    unfold seq, modify.
    rewrite !Hno by (unfold recognizedTags; rewrite !elem_of_cons; auto 10).
    simpl.
    eexists _, [WarnUnknownType (in_type m)]. split; [done|]. split; [done|].
    split; [|split; [exact Htouch|]].
    + intros d m'. split; intros [[=]|?%elem_of_nil]%elem_of_cons; done.
    + simpl. by rewrite keys_updateClient.
Qed.

(** Scenario D of the specification: A sends a frame with type
    "NOT_A_TYPE". *)
Lemma unrecognized_frame_dropped_witness :
  ∃ σ' t,
    onMessage 9 idA notATypeFrame globalRoomServer = Some (Normal, σ', t)
    ∧ t = [WarnUnknownType (Some "NOT_A_TYPE")]
    ∧ (∀ d m, (WsSend d m ∉ t) ∧ (WsSendThrew d m ∉ t))
    ∧ is_Some (JsMap.get idA (clients σ'))
    ∧ JsMap.keys (clients σ') = JsMap.keys (clients globalRoomServer)
    ∧ rooms σ' = rooms globalRoomServer
    ∧ userSessions σ' = userSessions globalRoomServer.
Proof.
  eapply (unrecognized_frame_dropped 9 idA notATypeFrame globalRoomServer).
  - vm_compute. reflexivity.
  - intros tag [= <-]. vm_compute.
    intros Hin. repeat (apply elem_of_cons in Hin as [[=]|Hin]).
    by apply elem_of_nil in Hin.
Defined.

(** ** SUBSCRIBE is idempotent *)

Lemma setClients_id f σ : f (clients σ) = clients σ → setClients f σ = σ.
Proof. intros H. destruct σ. unfold setClients. simpl in *. by rewrite H. Qed.

Lemma setRooms_id f σ : f (rooms σ) = rooms σ → setRooms f σ = σ.
Proof. intros H. destruct σ. unfold setRooms. simpl in *. by rewrite H. Qed.

Lemma setUserSessions_id f σ : f (userSessions σ) = userSessions σ → setUserSessions f σ = σ.
Proof. intros H. destruct σ. unfold setUserSessions. simpl in *. by rewrite H. Qed.

Lemma updateClient_id c f cs cl :
  JsMap.get c cs = Some cl → f cl = cl → updateClient c f cs = cs.
Proof. intros Hg Hf. unfold updateClient. rewrite Hg, Hf. by apply set_same. Qed.

Lemma join_member c k m : c ∈ default [] (JsMap.get k (join c k m)).
Proof.
  rewrite join_eq, get_set, decide_True by done. simpl.
  apply elem_of_set_add. by left.
Qed.

Lemma join_keeps_member c k m x k' :
  x ∈ default [] (JsMap.get k' m) → x ∈ default [] (JsMap.get k' (join c k m)).
Proof.
  rewrite join_eq, get_set. case_decide; [|done]. subst. simpl.
  intros ?. apply elem_of_set_add. by right.
Qed.

Lemma join_present c k m : c ∈ default [] (JsMap.get k m) → join c k m = m.
Proof.
  intros Hin. rewrite join_eq. destruct (JsMap.get k m) as [s|] eqn:Hg.
  - simpl in *. rewrite set_add_present by done. by apply set_same.
  - by apply elem_of_nil in Hin.
Qed.

Lemma joinRooms_fold c rs σ :
  fold_left (λ acc roomId, setRooms (join c roomId) acc) rs σ
  = setRooms (λ m, fold_left (λ acc r, join c r acc) rs m) σ.
Proof.
  revert σ. induction rs as [|r rs IH]; intros σ; simpl.
  - by destruct σ.
  - rewrite IH. by destruct σ.
Qed.

Lemma join_fold_member c rs m r :
  r ∈ rs ∨ c ∈ default [] (JsMap.get r m) →
  c ∈ default [] (JsMap.get r (fold_left (λ acc r, join c r acc) rs m)).
Proof.
  revert m. induction rs as [|r0 rs IH]; intros m; simpl.
  - by intros [?%elem_of_nil|?].
  - intros H. apply IH. rewrite elem_of_cons in H.
    destruct H as [[->|?]|?]; [right; apply join_member|by left|].
    right. by apply join_keeps_member.
Qed.

Lemma join_fold_present c rs m :
  (∀ r, r ∈ rs → c ∈ default [] (JsMap.get r m)) →
  fold_left (λ acc r, join c r acc) rs m = m.
Proof.
  induction rs as [|r0 rs IH]; intros H; simpl; [done|].
  rewrite join_present by (apply H; left). apply IH. intros r ?. apply H. by right.
Qed.

Lemma add_fold_member subs s x :
  x ∈ subs ∨ x ∈ s → x ∈ fold_left (λ acc sub, JsSet.add sub acc) subs s.
Proof.
  revert s. induction subs as [|y subs IH]; intros s; simpl.
  - by intros [?%elem_of_nil|?].
  - intros H. apply IH. rewrite elem_of_cons in H. rewrite elem_of_set_add. tauto.
Qed.

(** What the three blocks of [handleSubscribe] do to the entry of the
    subscribing connection and to the indexes. *)
Lemma bindUser_view c p σ cl :
  JsMap.get c (clients σ) = Some cl →
  ∃ cl', JsMap.get c (clients (bindUser c p σ)) = Some cl'
         ∧ subscriptions cl' = subscriptions cl
         ∧ lastActivity cl' = lastActivity cl
         ∧ rooms (bindUser c p σ) = rooms σ
         ∧ ∀ u, p_userId p = Some u → u ≠ "" →
                userId cl' = Some u ∧ c ∈ connectionsOf u (bindUser c p σ).
Proof.
  intros Hg. unfold bindUser, truthy. destruct (p_userId p) as [u|].
  - case_bool_decide as He; simpl.
    + exists cl. do 4 (split; [done|]). by intros ? [= <-].
    + exists (withUserId u cl). rewrite get_updateClient, decide_True, Hg by done.
      do 4 (split; [done|]). intros ? [= <-] _.
      split; [done|]. apply join_member.
  - exists cl. do 4 (split; [done|]). by intros ? [=].
Qed.

Lemma addSubscriptions_view c p σ cl :
  JsMap.get c (clients σ) = Some cl →
  ∃ cl', JsMap.get c (clients (addSubscriptions c p σ)) = Some cl'
         ∧ userId cl' = userId cl
         ∧ lastActivity cl' = lastActivity cl
         ∧ rooms (addSubscriptions c p σ) = rooms σ
         ∧ userSessions (addSubscriptions c p σ) = userSessions σ
         ∧ ∀ subs x, p_subscriptions p = Some subs →
                     x ∈ subs ∨ x ∈ subscriptions cl → x ∈ subscriptions cl'.
Proof.
  unfold addSubscriptions. destruct (p_subscriptions p) as [subs|].
  - revert σ cl. induction subs as [|s subs IH]; intros σ cl Hg; simpl.
    + exists cl. do 5 (split; [done|]). intros ? x [= <-] [?%elem_of_nil|?]; done.
    + destruct (IH (setClients (updateClient c (withSubscriptions (JsSet.add s))) σ)
                  (withSubscriptions (JsSet.add s) cl))
        as (cl' & Hg' & Hu & Hla & Hr & Hus & Hsubs).
      { simpl. by rewrite get_updateClient, decide_True, Hg. }
      exists cl'. do 5 (split; [done|]).
      intros ? x [= <-] Hx. apply (Hsubs subs x eq_refl). simpl.
      rewrite elem_of_set_add. rewrite elem_of_cons in Hx. tauto.
  - intros Hg. exists cl. do 5 (split; [done|]). by intros ? x [=].
Qed.

Lemma joinRooms_view c p σ :
  clients (joinRooms c p σ) = clients σ
  ∧ userSessions (joinRooms c p σ) = userSessions σ
  ∧ ∀ rs r, p_rooms p = Some rs → r ∈ rs → c ∈ membersOf r (joinRooms c p σ).
Proof.
  unfold joinRooms, membersOf. destruct (p_rooms p) as [rs|]; [|by repeat split].
  rewrite joinRooms_fold. simpl. split; [done|]. split; [done|].
  intros ? r [= <-] Hin. apply join_fold_member. by left.
Qed.

(** A second pass of each block over a state in which its work is already
    done changes nothing. *)
Lemma bindUser_done c p σ cl :
  JsMap.get c (clients σ) = Some cl →
  (∀ u, p_userId p = Some u → u ≠ "" → userId cl = Some u ∧ c ∈ connectionsOf u σ) →
  bindUser c p σ = σ.
Proof.
  intros Hg H. unfold bindUser, truthy. destruct (p_userId p) as [u|]; [|done].
  case_bool_decide as He; simpl; [done|].
  destruct (H u eq_refl He) as [Hu Hin].
  rewrite (setClients_id _ σ).
  - apply setUserSessions_id. by apply join_present.
  - eapply updateClient_id; [done|]. destruct cl. simpl in *. by rewrite Hu.
Qed.

Lemma addSubscriptions_done c p σ cl :
  JsMap.get c (clients σ) = Some cl →
  (∀ subs x, p_subscriptions p = Some subs → x ∈ subs → x ∈ subscriptions cl) →
  addSubscriptions c p σ = σ.
Proof.
  intros Hg H. unfold addSubscriptions. destruct (p_subscriptions p) as [subs|]; [|done].
  specialize (H subs). induction subs as [|s subs IH]; simpl; [done|].
  rewrite (setClients_id _ σ).
  - apply IH. intros x ? Hx. apply H; [done|by right].
  - eapply updateClient_id; [done|]. destruct cl. unfold withSubscriptions. simpl in *.
    rewrite set_add_present; [done|]. apply H; [done|by left].
Qed.

Lemma joinRooms_done c p σ :
  (∀ rs r, p_rooms p = Some rs → r ∈ rs → c ∈ membersOf r σ) →
  joinRooms c p σ = σ.
Proof.
  intros H. unfold joinRooms. destruct (p_rooms p) as [rs|]; [|done].
  rewrite joinRooms_fold. apply setRooms_id. apply join_fold_present.
  intros r Hr. by apply (H rs).
Qed.

Lemma handleSubscribe_result c p σ cl :
  JsMap.get c (clients σ) = Some cl →
  ∃ cl', handleSubscribe c (Some p) σ
           = Some (Normal, joinRooms c p (addSubscriptions c p (bindUser c p σ)),
                   [LogSubscribed c])
         ∧ JsMap.get c (clients (joinRooms c p (addSubscriptions c p (bindUser c p σ))))
           = Some cl'
         ∧ lastActivity cl' = lastActivity cl.
Proof.
  intros Hg. unfold handleSubscribe. rewrite Hg.
  destruct (bindUser_view c p σ cl Hg) as (cl1 & Hg1 & _ & Hl1 & _).
  destruct (addSubscriptions_view c p _ cl1 Hg1) as (cl2 & Hg2 & _ & Hl2 & _).
  destruct (joinRooms_view c p (addSubscriptions c p (bindUser c p σ))) as (Hc3 & _).
  exists cl2. split; [done|]. split; [by rewrite Hc3|congruence].
Qed.

Lemma handleSubscribe_again c pl σ cp σ1 t :
  handleSubscribe c pl σ = Some (cp, σ1, t) →
  handleSubscribe c pl σ1 = Some (cp, σ1, t).
Proof.
  unfold handleSubscribe.
  destruct (JsMap.get c (clients σ)) as [cl|] eqn:Hg.
  2: { intros [= <- <- <-]. by rewrite Hg. }
  destruct pl as [p|].
  2: { intros [= <- <- <-]. by rewrite Hg. }
  destruct (bindUser_view c p σ cl Hg) as (cl1 & Hg1 & Hs1 & _ & Hr1 & Hu1).
  destruct (addSubscriptions_view c p _ cl1 Hg1)
    as (cl2 & Hg2 & Hu2 & _ & Hr2 & Hus2 & Hs2).
  destruct (joinRooms_view c p (addSubscriptions c p (bindUser c p σ)))
    as (Hc3 & Hus3 & Hr3).
  unfold seq, modify, emit. intros [= <- <- <-].
  set (σ1 := joinRooms c p (addSubscriptions c p (bindUser c p σ))) in *.
  assert (JsMap.get c (clients σ1) = Some cl2) as Hg3 by by rewrite Hc3.
  rewrite Hg3.
  assert (bindUser c p σ1 = σ1) as ->.
  { eapply bindUser_done; [done|]. intros u Hu Hne.
    destruct (Hu1 u Hu Hne) as [Hcl1 Hin]. split; [congruence|].
    unfold connectionsOf in *. by rewrite Hus3, Hus2. }
  assert (addSubscriptions c p σ1 = σ1) as ->.
  { eapply addSubscriptions_done; [done|]. intros subs x Hsubs Hx.
    apply (Hs2 subs x Hsubs). by left. }
  assert (joinRooms c p σ1 = σ1) as -> by by apply joinRooms_done.
  done.
Qed.

Lemma handleSubscribe_returns c pl : returns (handleSubscribe c pl).
Proof.
  intros σ. unfold handleSubscribe.
  destruct (JsMap.get c (clients σ)); [|by eexists _, _, _].
  destruct pl; by eexists _, _, _.
Qed.

Lemma touch_done now c σ cl :
  JsMap.get c (clients σ) = Some cl → lastActivity cl = now →
  setClients (updateClient c (withLastActivity now)) σ = σ.
Proof.
  intros Hg Hl. apply setClients_id. eapply updateClient_id; [done|].
  destruct cl. simpl in *. by rewrite Hl.
Qed.

(** C10.  Handling a SUBSCRIBE a second time, straight after the first,
    leaves the server (registry, rooms, user sessions) exactly as the first
    handling left it: the user is already bound, the topics and the room
    memberships are already there.  This holds for every payload, also for a
    connection that is not registered (nothing happens, twice) and for a
    missing payload (the handler throws, twice, before it has changed
    anything).  It holds for [handleSubscribe] itself, and for the router's
    [handleMessage] around it when both handlings read the same clock (the
    router stamps the sender's last activity before it dispatches). *)
Theorem subscribe_twice_is_subscribe_once c pl σ :
  (∃ cp σ1 t,
     handleSubscribe c pl σ = Some (cp, σ1, t)
     ∧ handleSubscribe c pl σ1 = Some (cp, σ1, t))
  ∧ (∀ now m,
       in_type m = Some "SUBSCRIBE" → in_payload m = pl →
       ∃ cp σ1 t,
         handleMessage now c (Some m) σ = Some (cp, σ1, t)
         ∧ handleMessage now c (Some m) σ1 = Some (cp, σ1, t)).
Proof.
  split.
  - destruct (handleSubscribe_returns c pl σ) as (cp & σ1 & t & H).
    exists cp, σ1, t. split; [done|]. by eapply handleSubscribe_again.
  - intros now m Hty Hpl. unfold handleMessage.
    destruct (JsMap.get c (clients σ)) as [cl|] eqn:Hg.
    2: { exists Normal, σ, []. by rewrite Hg. }
    simpl. rewrite Hty, Hpl.
    rewrite (bool_decide_eq_false_2 (Some "SUBSCRIBE" = Some "STATE_SYNC")) by done.
    rewrite (bool_decide_eq_false_2 (Some "SUBSCRIBE" = Some "EVENT_BROADCAST")) by done.
    rewrite (bool_decide_eq_true_2 (Some "SUBSCRIBE" = Some "SUBSCRIBE")) by done.
    set (σt := setClients (updateClient c (withLastActivity now)) σ).
    assert (JsMap.get c (clients σt) = Some (withLastActivity now cl)) as Hgt.
    { unfold σt. simpl. by rewrite get_updateClient, decide_True, Hg. }
    destruct pl as [p|].
    + destruct (handleSubscribe_result c p σt _ Hgt) as (cl' & Hs & Hg' & Hl').
      pose proof (handleSubscribe_again _ _ _ _ _ _ Hs) as Hs2.
      eexists Normal, _, _. split.
      { unfold seq, modify. fold σt. rewrite Hs. done. }
      rewrite Hg'. unfold seq, modify.
      rewrite (touch_done now c _ cl') by done. by rewrite Hs2.
    + exists Thrown, σt, []. split.
      { unfold seq, modify. fold σt. unfold handleSubscribe. by rewrite Hgt. }
      rewrite Hgt. unfold seq, modify.
      rewrite (touch_done now c σt (withLastActivity now cl)) by done.
      unfold handleSubscribe. by rewrite Hgt.
Qed.

(** A, already in "global", sends the SUBSCRIBE for "global" and user "u1"
    twice at time 9. *)
Lemma subscribe_twice_is_subscribe_once_witness :
  ∃ cp σ1 t,
    handleMessage 9 idA
      (Some {| in_type := Some "SUBSCRIBE";
               in_payload := Some (subscribePayload (Some "u1") (Some ["global"])) |})
      globalRoomServer = Some (cp, σ1, t)
    ∧ handleMessage 9 idA
        (Some {| in_type := Some "SUBSCRIBE";
                 in_payload := Some (subscribePayload (Some "u1") (Some ["global"])) |})
        σ1 = Some (cp, σ1, t).
Proof.
  apply (proj2 (subscribe_twice_is_subscribe_once idA
                  (Some (subscribePayload (Some "u1") (Some ["global"]))) globalRoomServer)).
  - reflexivity.
  - reflexivity.
Defined.

(** ** Stale user sessions *)

(** C3, the failing run.  A binds user "u1", rebinds to "u2" and closes.
    The disconnect procedure only looks at the user the connection is bound
    to now, so the session set of "u1" still holds A's identifier although A
    is gone from the registry. *)
Theorem rebind_leaves_stale_session :
  reachable rebindServer
  ∧ (∃ t, run rebindSchedule newServer = Some (Normal, rebindServer, t))
  ∧ JsMap.get idA (clients rebindServer) = None
  ∧ idA ∈ connectionsOf "u1" rebindServer.
Proof.
  split; [apply (stateAfter_reachable rebindSchedule)|].
  split; [eexists; vm_compute; reflexivity|].
  split; [reflexivity|]. vm_compute. left.
Qed.

(** ** No empty member sets *)

Lemma preserves_ret I : preserves I ret.
Proof. by intros σ cp σ' t [= _ <- _]. Qed.

Lemma preserves_throw I : preserves I throw.
Proof. by intros σ cp σ' t [= _ <- _]. Qed.

Lemma preserves_emit I e : preserves I (emit e).
Proof. by intros σ cp σ' t [= _ <- _]. Qed.

Lemma preserves_modify (I : Server → Prop) f :
  (∀ σ, I σ → I (f σ)) → preserves I (modify f).
Proof. intros Hf σ cp σ' t [= _ <- _]. apply Hf. Qed.

Lemma preserves_seq I a b : preserves I a → preserves I b → preserves I (a >>> b).
Proof.
  intros Ha Hb σ cp σ' t [[_ H]|(σ1 & t1 & t2 & H1 & H2 & _)]%seq_inv Hσ; eauto.
Qed.

Lemma preserves_tryCatch I a b : preserves I a → preserves I b → preserves I (tryCatch a b).
Proof.
  intros Ha Hb σ cp σ' t. unfold tryCatch.
  destruct (a σ) as [[[[] σ1] t1]|] eqn:H1; [| |done].
  - intros [= _ <- _]. eauto.
  - destruct (b σ1) as [[[c2 σ2] t2]|] eqn:H2; [|done].
    intros [= _ <- _]. eauto.
Qed.

Lemma preserves_forEach {K} I (l : list K) body :
  (∀ k, preserves I (body k)) → preserves I (forEach l body).
Proof.
  intros Hb. induction l as [|k l IH]; simpl.
  - apply preserves_ret.
  - by apply preserves_seq.
Qed.

Lemma preserves_rel I R a :
  (∀ σ σ', R σ σ' → I σ → I σ') →
  (∀ σ cp σ' t, a σ = Some (cp, σ', t) → R σ σ') → preserves I a.
Proof. intros HR Ha σ cp σ' t H. eauto. Qed.

Lemma sendToClient_noEmptySets now c m : preserves noEmptySets (sendToClient now c m).
Proof.
  intros σ cp σ' t H.
  by apply (sendToClient_rel _ keepsNoEmptySets _ _ _ _ _ _ keepsNoEmptySets_closed) in H.
Qed.

Lemma broadcastToAll_noEmptySets now m excl : preserves noEmptySets (broadcastToAll now m excl).
Proof.
  intros σ cp σ' t H.
  by apply (broadcastToAll_rel _ keepsNoEmptySets _ _ _ _ _ _ keepsNoEmptySets_closed) in H.
Qed.

Lemma broadcastToUser_noEmptySets now u m excl :
  preserves noEmptySets (broadcastToUser now u m excl).
Proof.
  intros σ cp σ' t H.
  by apply (broadcastToUser_rel _ keepsNoEmptySets _ _ _ _ _ _ _ keepsNoEmptySets_closed) in H.
Qed.

Lemma broadcastToRoom_noEmptySets now r m excl :
  preserves noEmptySets (broadcastToRoom now r m excl).
Proof.
  intros σ cp σ' t H.
  by apply (broadcastToRoom_rel _ keepsNoEmptySets _ _ _ _ _ _ _ keepsNoEmptySets_closed) in H.
Qed.

(** The disconnect procedure, for any connection: the bookkeeping deletes
    every set it empties, and the announcement keeps it so. *)
Lemma handleDisconnection_noEmptySets now c : preserves noEmptySets (handleDisconnection now c).
Proof.
  intros σ cp σ' t H Hσ. destruct (JsMap.get c (clients σ)) as [cl|] eqn:Hg.
  - apply (handleDisconnection_rel _ keepsNoEmptySets _ _ cl) in H;
      [|apply keepsNoEmptySets_closed|done].
    by apply H, purge_noEmptySets.
  - rewrite handleDisconnection_unregistered in H by done. by injection H as _ <- _.
Qed.

Lemma setClients_noEmptySets f σ : noEmptySets σ → noEmptySets (setClients f σ).
Proof. done. Qed.

Lemma fold_setClients_noEmptySets {A} (g : A → list (string * ClientConnection)
                                               → list (string * ClientConnection)) l σ :
  noEmptySets σ → noEmptySets (fold_left (λ acc x, setClients (g x) acc) l σ).
Proof. revert σ. induction l as [|x l IH]; intros σ H; simpl; [done|]. by apply IH. Qed.

Lemma bindUser_noEmptySets c p σ : noEmptySets σ → noEmptySets (bindUser c p σ).
Proof.
  intros [Hr Hu]. unfold bindUser. destruct (p_userId p) as [u|]; [|done].
  destruct (truthy (Some u)); [|done]. split; [done|]. simpl.
  by apply join_noEmptyEntry.
Qed.

Lemma joinRooms_noEmptySets c p σ : noEmptySets σ → noEmptySets (joinRooms c p σ).
Proof.
  unfold joinRooms. destruct (p_rooms p) as [rs|]; [|done].
  revert σ. induction rs as [|r rs IH]; intros σ H; simpl; [done|].
  apply IH. destruct H as [Hr Hu]. split; [|done]. simpl. by apply join_noEmptyEntry.
Qed.

Lemma leaveRooms_noEmptySets c p σ : noEmptySets σ → noEmptySets (leaveRooms c p σ).
Proof.
  unfold leaveRooms. destruct (p_rooms p) as [rs|]; [|done].
  revert σ. induction rs as [|r rs IH]; intros σ H; simpl; [done|].
  apply IH. destruct H as [Hr Hu]. split; [|done]. simpl. by apply leave_noEmptyEntry.
Qed.

Lemma handleSubscribe_noEmptySets c pl : preserves noEmptySets (handleSubscribe c pl).
Proof.
  intros σ cp σ' t. unfold handleSubscribe.
  destruct (JsMap.get c (clients σ)); [|apply preserves_ret].
  destruct pl as [p|]; [|apply preserves_throw].
  apply preserves_seq; [apply preserves_modify, bindUser_noEmptySets|].
  apply preserves_seq.
  { apply preserves_modify. intros σ0. unfold addSubscriptions.
    destruct (p_subscriptions p); [|done].
    apply (fold_setClients_noEmptySets
             (λ sub, updateClient c (withSubscriptions (JsSet.add sub)))). }
  apply preserves_seq; [apply preserves_modify, joinRooms_noEmptySets|].
  apply preserves_emit.
Qed.

(** The explicit leave of UNSUBSCRIBE deletes a room the moment its last
    member leaves. *)
Lemma handleUnsubscribe_noEmptySets c pl : preserves noEmptySets (handleUnsubscribe c pl).
Proof.
  intros σ cp σ' t. unfold handleUnsubscribe.
  destruct (JsMap.get c (clients σ)); [|apply preserves_ret].
  destruct pl as [p|]; [|apply preserves_throw].
  apply preserves_seq; [|apply preserves_modify, leaveRooms_noEmptySets].
  apply preserves_modify. intros σ0. unfold removeSubscriptions.
  destruct (p_subscriptions p); [|done].
  apply (fold_setClients_noEmptySets
           (λ sub, updateClient c (withSubscriptions (JsSet.delete sub)))).
Qed.

Lemma handleMessage_noEmptySets now c message :
  preserves noEmptySets (handleMessage now c message).
Proof.
  intros σ cp σ' t. unfold handleMessage.
  destruct (JsMap.get c (clients σ)); [|apply preserves_ret].
  apply preserves_seq; [by apply preserves_modify|].
  destruct message as [m|]; [|apply preserves_throw].
  simpl. repeat case_bool_decide.
  - unfold handleStateSync. destruct (in_payload m) as [p|]; [|apply preserves_throw].
    destruct (p_targetUsers p) as [[|u us]|];
      try apply broadcastToAll_noEmptySets.
    apply preserves_forEach. intros u'. apply broadcastToUser_noEmptySets.
  - unfold handleEventBroadcast. destruct (in_payload m) as [p|]; [|apply preserves_throw].
    destruct (p_room p) as [r|]; [|apply broadcastToAll_noEmptySets].
    destruct (truthy (Some r));
      [apply broadcastToRoom_noEmptySets|apply broadcastToAll_noEmptySets].
  - apply handleSubscribe_noEmptySets.
  - apply handleUnsubscribe_noEmptySets.
  - intros σ0 cp0 σ0' t0. unfold handleHeartbeat.
    destruct (JsMap.get c (clients σ0)); [|apply preserves_ret].
    apply preserves_seq; [by apply preserves_modify|apply sendToClient_noEmptySets].
  - apply preserves_emit.
Qed.

Lemma step_noEmptySets now e : preserves noEmptySets (step now e).
Proof.
  destruct e as [rnd36 param socket|c data|c|c|h| |c socket]; simpl.
  - unfold onConnection. apply preserves_seq; [by apply preserves_modify|].
    apply preserves_seq; [intros σ cp σ' t; apply preserves_emit|].
    apply preserves_seq; [apply sendToClient_noEmptySets|].
    unfold startHeartbeat. by apply preserves_modify.
  - unfold onMessage. apply preserves_tryCatch; [|apply preserves_emit].
    destruct data; [apply preserves_throw|apply handleMessage_noEmptySets..].
  - apply handleDisconnection_noEmptySets.
  - unfold onError. apply preserves_seq;
      [apply preserves_emit|apply handleDisconnection_noEmptySets].
  - intros σ cp σ' t. unfold heartbeatTick.
    destruct (timerClient h σ) as [c|]; [|apply preserves_ret].
    destruct (JsMap.get c (clients σ)) as [cl|]; [|by apply preserves_modify].
    destruct (isOpen (ws cl)); simpl;
      [apply sendToClient_noEmptySets|by apply preserves_modify].
  - unfold cleanupInactiveClients, Map_forEach. intros σ.
    apply preserves_forEach. intros k σ1.
    destruct (JsMap.get k (clients σ1)) as [cl|]; [|apply preserves_ret].
    destruct (now - lastActivity cl >? timeout)%Z; [|apply preserves_ret].
    apply preserves_seq; [apply preserves_emit|apply handleDisconnection_noEmptySets].
  - by apply preserves_modify.
Qed.

(** C4.  In every state the server can reach from start-up, through any
    sequence of accepted connections, inbound frames, socket closes and
    errors, heartbeat firings, sweeps and transport changes, no room entry
    and no user-session entry has an empty member set. *)
Theorem reachable_no_empty_sets σ : reachable σ → noEmptySets σ.
Proof.
  induction 1 as [|σ now e c σ' t Hσ IH Hstep].
  - split; constructor.
  - by eapply step_noEmptySets.
Qed.

(** Scenario B of the specification: the only member of "global" has
    disconnected, and the room entry (like the user-session entry) is gone. *)
Lemma reachable_no_empty_sets_witness :
  noEmptySets soleMemberServer ∧ rooms soleMemberServer = [] ∧ membersOf "global" soleMemberServer = [].
Proof.
  split; [|split; reflexivity].
  apply (reachable_no_empty_sets soleMemberServer).
  apply (stateAfter_reachable soleMemberSchedule).
Defined.

(** ** Connection identifiers *)

Lemma pretty_N_go_no_underscore x s :
  hasUnderscore s = false → hasUnderscore (pretty_N_go x s) = false.
Proof.
  revert s. induction (N.lt_wf_0 x) as [x _ IH]; intros s Hs.
  assert (x = 0 ∨ 0 < x)%N as [->|Hpos] by lia.
  - by rewrite pretty_N_go_0.
  - rewrite pretty_N_go_step by done. apply IH; [by apply N.div_lt|].
    simpl. unfold pretty_N_char. by repeat case_match.
Qed.

Lemma pretty_N_no_underscore (x : N) : hasUnderscore (pretty x) = false.
Proof.
  unfold pretty, pretty_N. case_decide; [done|]. by apply pretty_N_go_no_underscore.
Qed.

Lemma pretty_Z_no_underscore (x : Z) : hasUnderscore (pretty x) = false.
Proof.
  unfold pretty, pretty_Z. destruct x as [|p|p]; [done|..].
  - apply (pretty_N_no_underscore (Npos p)).
  - simpl. apply (pretty_N_no_underscore (Npos p)).
Qed.

(** Strings without underscore followed by an underscore split uniquely. *)
Lemma underscore_split s1 s2 r1 r2 :
  hasUnderscore s1 = false → hasUnderscore s2 = false →
  s1 +:+ "_" +:+ r1 = s2 +:+ "_" +:+ r2 → s1 = s2 ∧ r1 = r2.
Proof.
  revert s2. induction s1 as [|a s1 IH]; intros [|b s2]; simpl.
  - intros _ _ [= H]. simpl in H. by subst.
  - destruct (Ascii.ascii_dec b "_"%char) as [->|Hb]; [done|]. intros _ _ [= <- _]. done.
  - destruct (Ascii.ascii_dec a "_"%char) as [->|Ha]; [done|]. intros _ _ [= -> _]. done.
  - destruct (Ascii.ascii_dec a "_"%char); [done|].
    destruct (Ascii.ascii_dec b "_"%char); [done|].
    intros H1 H2 [= -> H]. destruct (IH _ H1 H2 H) as [-> ->]. done.
Qed.

Lemma generateClientId_inj now1 rnd1 now2 rnd2 :
  generateClientId now1 rnd1 = generateClientId now2 rnd2 ↔
  now1 = now2 ∧ String.substring 2 9 rnd1 = String.substring 2 9 rnd2.
Proof.
  unfold generateClientId. split.
  - intros H. simpl in H. injection H as H.
    apply underscore_split in H as [Hn ?]; try apply pretty_Z_no_underscore.
    split; [|done]. by apply (inj pretty).
  - by intros [-> ->].
Qed.

(** C8 (as amended).  The identifier is built from the clock reading and
    nine base-36 digits of a random number, and nothing else: two accepts
    get the same identifier exactly when they happen in the same millisecond
    and draw the same nine digits.  So the identifiers returned for a
    sequence of accepts are pairwise distinct whenever those (millisecond,
    digits) pairs are. *)
Theorem client_ids_distinct (readings : list (Z * string)) :
  NoDup (idSeed <$> readings) → NoDup (generatedIds readings).
Proof.
  unfold generatedIds. induction readings as [|r rs IH]; [constructor|].
  rewrite !fmap_cons, !NoDup_cons. intros [Hnin Hnd]. split; [|auto].
  rewrite !list_elem_of_fmap in *. intros (r' & Heq & Hin). apply Hnin.
  exists r'. split; [|done]. apply generateClientId_inj in Heq as [? ?].
  unfold idSeed. by f_equal.
Qed.

Lemma client_ids_distinct_witness :
  NoDup (generatedIds [(1%Z, "0.aaaaaaaaaaa"); (1%Z, "0.bbbbbbbbbbb"); (2%Z, "0.aaaaaaaaaaa")]).
Proof.
  apply client_ids_distinct. vm_compute.
  repeat (apply NoDup_cons_2;
          [intros Hin; repeat (apply elem_of_cons in Hin as [[=]|Hin]);
           by apply elem_of_nil in Hin|]).
  apply NoDup_nil_2.
Defined.

(** C8, counterexample.  Two connections are accepted in the same
    millisecond and their random numbers, although different, share their
    first nine digits: both accepts return the same identifier, and the
    second registration overwrites the first (one registry entry for two
    sockets). *)
Lemma client_ids_collide :
  generatedIds [(5%Z, "0.abcdefghijk"); (5%Z, "0.abcdefghixyz")]
    = ["client_5_abcdefghi"; "client_5_abcdefghi"]
  ∧ JsMap.keys (clients (stateAfter collidingSchedule)) = ["client_5_abcdefghi"]
  ∧ ¬ NoDup (generatedIds [(5%Z, "0.abcdefghijk"); (5%Z, "0.abcdefghixyz")]).
Proof.
  split; [reflexivity|]. split; [reflexivity|].
  intros [Hnin _]%NoDup_cons. apply Hnin. left.
Qed.

(** * Further properties of the event loop *)

(** ** No callback gets stuck *)

Lemma handleDisconnection_completes now c : completes (handleDisconnection now c).
Proof. intros σ. destruct (handleDisconnection_total now c σ) as (σ' & t & H & _). eauto. Qed.

Lemma sendToClient_completes now c m : completes (sendToClient now c m).
Proof. intros σ. apply sendToClient_total. Qed.

Lemma broadcastToAll_completes now m excl : completes (broadcastToAll now m excl).
Proof. intros σ. rewrite broadcastToAll_loop. apply deliverLoop_total. Qed.

Lemma broadcastToUser_completes now u m excl : completes (broadcastToUser now u m excl).
Proof.
  intros σ. rewrite broadcastToUser_loop.
  destruct (JsMap.get u (userSessions σ)); [apply deliverLoop_total|apply completes_ret].
Qed.

Lemma broadcastToRoom_completes now r m excl : completes (broadcastToRoom now r m excl).
Proof.
  intros σ. rewrite broadcastToRoom_loop.
  destruct (JsMap.get r (rooms σ)); [apply deliverLoop_total|apply completes_ret].
Qed.

Lemma handleMessage_returns now c message : returns (handleMessage now c message).
Proof.
  intros σ. unfold handleMessage.
  destruct (JsMap.get c (clients σ)); [|apply completes_returns, completes_ret].
  apply returns_seq; [apply completes_returns, completes_modify|].
  destruct message as [m|]; [|apply returns_throw].
  simpl. repeat case_bool_decide.
  - unfold handleStateSync. destruct (in_payload m) as [p|]; [|apply returns_throw].
    apply completes_returns.
    destruct (p_targetUsers p) as [[|u us]|]; try apply broadcastToAll_completes.
    apply completes_forEach. intros u'. apply broadcastToUser_completes.
  - unfold handleEventBroadcast. destruct (in_payload m) as [p|]; [|apply returns_throw].
    apply completes_returns.
    destruct (p_room p) as [r|]; [|apply broadcastToAll_completes].
    destruct (truthy (Some r));
      [apply broadcastToRoom_completes|apply broadcastToAll_completes].
  - intros σ0. unfold handleSubscribe.
    destruct (JsMap.get c (clients σ0)); [|apply completes_returns, completes_ret].
    destruct (in_payload m) as [p|]; [|apply returns_throw].
    apply completes_returns. repeat apply completes_seq;
      auto using completes_modify, completes_emit.
  - intros σ0. unfold handleUnsubscribe.
    destruct (JsMap.get c (clients σ0)); [|apply completes_returns, completes_ret].
    destruct (in_payload m) as [p|]; [|apply returns_throw].
    apply completes_returns. repeat apply completes_seq; auto using completes_modify.
  - intros σ0. unfold handleHeartbeat.
    destruct (JsMap.get c (clients σ0)); [|apply completes_returns, completes_ret].
    apply completes_returns, completes_seq;
      [apply completes_modify|apply sendToClient_completes].
  - apply completes_returns, completes_emit.
Qed.

(** No callback of the event loop gets stuck or lets an exception escape. *)
Lemma step_completes now e : completes (step now e).
Proof.
  destruct e as [rnd36 param socket|c data|c|c|h| |c socket]; simpl.
  - unfold onConnection. apply completes_seq; [apply completes_modify|].
    apply completes_seq; [intros σ; apply completes_emit|].
    apply completes_seq; [apply sendToClient_completes|apply completes_modify].
  - unfold onMessage. apply completes_tryCatch; [|apply completes_emit].
    destruct data; [apply returns_throw|apply handleMessage_returns..].
  - apply handleDisconnection_completes.
  - unfold onError. apply completes_seq;
      [apply completes_emit|apply handleDisconnection_completes].
  - intros σ. unfold heartbeatTick.
    destruct (timerClient h σ) as [c|]; [|apply completes_ret].
    destruct (JsMap.get c (clients σ)) as [cl|]; [|apply completes_modify].
    destruct (isOpen (ws cl)); simpl;
      [apply sendToClient_completes|apply completes_modify].
  - intros σ. apply cleanup_total.
  - apply completes_modify.
Qed.

(** ** Room members are registered

    The half of the registry/index consistency that the server does keep:
    the disconnect procedure walks every room, so no room ever holds the
    identifier of a connection that has left the registry. *)

Lemma purge_roomMembersRegistered c cl σ :
  roomMembersRegistered σ → roomMembersRegistered (purge c cl σ).
Proof.
  intros H r x. rewrite membersOf_purge, elem_of_set_delete, clients_purge.
  intros [Hne Hin]. rewrite decide_False by done. by apply (H r).
Qed.

Lemma keepsRoomMembersRegistered_closed : purgeClosed keepsRoomMembersRegistered.
Proof.
  split; [|split].
  - by intros σ ?.
  - intros σ1 σ2 σ3 H12 H23 ?. by apply H23, H12.
  - intros σ c cl _ _ _ ?. by apply purge_roomMembersRegistered.
Qed.

Lemma handleDisconnection_roomMembersRegistered now c :
  preserves roomMembersRegistered (handleDisconnection now c).
Proof.
  intros σ cp σ' t H Hσ. destruct (JsMap.get c (clients σ)) as [cl|] eqn:Hg.
  - apply (handleDisconnection_rel _ keepsRoomMembersRegistered _ _ cl) in H;
      [|apply keepsRoomMembersRegistered_closed|done].
    by apply H, purge_roomMembersRegistered.
  - rewrite handleDisconnection_unregistered in H by done. by injection H as _ <- _.
Qed.

Lemma sendToClient_roomMembersRegistered now c m :
  preserves roomMembersRegistered (sendToClient now c m).
Proof.
  intros σ cp σ' t H.
  exact (sendToClient_rel _ keepsRoomMembersRegistered _ _ _ _ _ _
           keepsRoomMembersRegistered_closed H).
Qed.

Lemma updateClient_roomMembersRegistered c f σ :
  roomMembersRegistered σ → roomMembersRegistered (setClients (updateClient c f) σ).
Proof.
  intros H r x Hin. simpl. rewrite get_updateClient.
  destruct (H r x Hin) as [cl Hcl]. case_decide; subst; rewrite Hcl; eauto.
Qed.

Lemma fold_updateClient_roomMembersRegistered {A} c (g : A → ClientConnection → ClientConnection) l σ :
  roomMembersRegistered σ →
  roomMembersRegistered (fold_left (λ acc x, setClients (updateClient c (g x)) acc) l σ).
Proof.
  revert σ. induction l as [|x l IH]; intros σ H; simpl; [done|].
  by apply IH, updateClient_roomMembersRegistered.
Qed.

Lemma join_roomMembersRegistered c r σ :
  is_Some (JsMap.get c (clients σ)) →
  roomMembersRegistered σ → roomMembersRegistered (setRooms (join c r) σ).
Proof.
  intros Hc H r' x. unfold membersOf. simpl. rewrite join_eq, get_set.
  case_decide; [|apply H]. subst. simpl. rewrite elem_of_set_add.
  intros [->|Hin]; [done|]. by apply (H r).
Qed.

Lemma leave_roomMembersRegistered c r σ :
  roomMembersRegistered σ → roomMembersRegistered (setRooms (leave c r) σ).
Proof.
  intros H r' x. unfold membersOf. simpl. rewrite members_leave.
  case_decide; [|apply H]. rewrite elem_of_set_delete. intros [_ Hin]. by apply (H r').
Qed.

Lemma handleSubscribe_roomMembersRegistered c pl :
  preserves roomMembersRegistered (handleSubscribe c pl).
Proof.
  intros σ cp σ' t. unfold handleSubscribe.
  destruct (JsMap.get c (clients σ)) as [cl|] eqn:Hg; [|apply preserves_ret].
  destruct pl as [p|]; [|apply preserves_throw].
  intros [[_ [=]]|(σ1 & t1 & t2 & [= <- <-] & H2 & _)]%seq_inv.
  apply seq_inv in H2 as [[_ [=]]|(σ2 & t3 & t4 & [= <- <-] & H3 & _)].
  apply seq_inv in H3 as [[_ [=]]|(σ3 & t5 & t6 & [= <- <-] & [= _ <- _] & _)].
  intros Hσ.
  destruct (bindUser_view c p σ cl Hg) as (cl1 & Hg1 & _).
  destruct (addSubscriptions_view c p _ cl1 Hg1) as (cl2 & Hg2 & _).
  assert (roomMembersRegistered (bindUser c p σ)) as H1.
  { unfold bindUser. destruct (p_userId p) as [u|]; [|done].
    destruct (truthy (Some u)); [|done].
    intros r x Hin. by apply (updateClient_roomMembersRegistered c (withUserId u) σ Hσ r). }
  assert (roomMembersRegistered (addSubscriptions c p (bindUser c p σ))) as H2'.
  { unfold addSubscriptions. destruct (p_subscriptions p); [|done].
    by apply (fold_updateClient_roomMembersRegistered c
                (λ sub, withSubscriptions (JsSet.add sub))). }
  unfold joinRooms. destruct (p_rooms p) as [rs|]; [|done].
  revert Hg2 H2'. generalize (addSubscriptions c p (bindUser c p σ)).
  induction rs as [|r rs IH]; intros σ0 Hg0 H0; simpl; [done|].
  apply IH; [done|]. apply join_roomMembersRegistered; eauto.
Qed.

Lemma handleUnsubscribe_roomMembersRegistered c pl :
  preserves roomMembersRegistered (handleUnsubscribe c pl).
Proof.
  intros σ cp σ' t. unfold handleUnsubscribe.
  destruct (JsMap.get c (clients σ)); [|apply preserves_ret].
  destruct pl as [p|]; [|apply preserves_throw].
  apply preserves_seq; apply preserves_modify; intros σ0 H0.
  - unfold removeSubscriptions. destruct (p_subscriptions p); [|done].
    by apply (fold_updateClient_roomMembersRegistered c
                (λ sub, withSubscriptions (JsSet.delete sub))).
  - unfold leaveRooms. destruct (p_rooms p) as [rs|]; [|done].
    revert σ0 H0. induction rs as [|r rs IH]; intros σ0 H0; simpl; [done|].
    by apply IH, leave_roomMembersRegistered.
Qed.

Lemma handleMessage_roomMembersRegistered now c message :
  preserves roomMembersRegistered (handleMessage now c message).
Proof.
  intros σ cp σ' t. unfold handleMessage.
  destruct (JsMap.get c (clients σ)); [|apply preserves_ret].
  apply preserves_seq;
    [apply preserves_modify; intros σ0; apply updateClient_roomMembersRegistered|].
  destruct message as [m|]; [|apply preserves_throw].
  simpl. repeat case_bool_decide.
  - unfold handleStateSync. destruct (in_payload m) as [p|]; [|apply preserves_throw].
    destruct (p_targetUsers p) as [[|u us]|];
      try (intros σ0 cp0 σ0' t0 Hb;
           exact (broadcastToAll_rel _ keepsRoomMembersRegistered _ _ _ _ _ _
                    keepsRoomMembersRegistered_closed Hb)).
    apply preserves_forEach. intros u' σ0 cp0 σ0' t0 Hb.
    exact (broadcastToUser_rel _ keepsRoomMembersRegistered _ _ _ _ _ _ _
             keepsRoomMembersRegistered_closed Hb).
  - unfold handleEventBroadcast. destruct (in_payload m) as [p|]; [|apply preserves_throw].
    destruct (p_room p) as [r|]; [destruct (truthy (Some r))|];
      intros σ0 cp0 σ0' t0 Hb.
    + exact (broadcastToRoom_rel _ keepsRoomMembersRegistered _ _ _ _ _ _ _
               keepsRoomMembersRegistered_closed Hb).
    + exact (broadcastToAll_rel _ keepsRoomMembersRegistered _ _ _ _ _ _
               keepsRoomMembersRegistered_closed Hb).
    + exact (broadcastToAll_rel _ keepsRoomMembersRegistered _ _ _ _ _ _
               keepsRoomMembersRegistered_closed Hb).
  - apply handleSubscribe_roomMembersRegistered.
  - apply handleUnsubscribe_roomMembersRegistered.
  - intros σ0 cp0 σ0' t0. unfold handleHeartbeat.
    destruct (JsMap.get c (clients σ0)); [|apply preserves_ret].
    apply preserves_seq; [|apply sendToClient_roomMembersRegistered].
    apply preserves_modify. intros σ1. apply updateClient_roomMembersRegistered.
  - apply preserves_emit.
Qed.

Lemma step_roomMembersRegistered now e : preserves roomMembersRegistered (step now e).
Proof.
  destruct e as [rnd36 param socket|c data|c|c|h| |c socket]; simpl.
  - unfold onConnection. apply preserves_seq.
    { apply preserves_modify. intros σ H r x Hin. simpl. rewrite get_set.
      case_decide; [eauto|]. by apply (H r). }
    apply preserves_seq; [intros σ cp σ' t; apply preserves_emit|].
    apply preserves_seq; [apply sendToClient_roomMembersRegistered|].
    unfold startHeartbeat. by apply preserves_modify.
  - unfold onMessage. apply preserves_tryCatch; [|apply preserves_emit].
    destruct data; [apply preserves_throw|apply handleMessage_roomMembersRegistered..].
  - apply handleDisconnection_roomMembersRegistered.
  - unfold onError. apply preserves_seq;
      [apply preserves_emit|apply handleDisconnection_roomMembersRegistered].
  - intros σ cp σ' t. unfold heartbeatTick.
    destruct (timerClient h σ) as [c|]; [|apply preserves_ret].
    destruct (JsMap.get c (clients σ)) as [cl|]; [|by apply preserves_modify].
    destruct (isOpen (ws cl)); simpl;
      [apply sendToClient_roomMembersRegistered|by apply preserves_modify].
  - unfold cleanupInactiveClients, Map_forEach. intros σ.
    apply preserves_forEach. intros k σ1.
    destruct (JsMap.get k (clients σ1)) as [cl|]; [|apply preserves_ret].
    destruct (now - lastActivity cl >? timeout)%Z; [|apply preserves_ret].
    apply preserves_seq;
      [apply preserves_emit|apply handleDisconnection_roomMembersRegistered].
  - apply preserves_modify. intros σ. apply updateClient_roomMembersRegistered.
Qed.

Lemma reachable_roomMembersRegistered σ : reachable σ → roomMembersRegistered σ.
Proof.
  induction 1 as [|σ now e c σ' t Hσ IH Hstep].
  - by intros r x ?%elem_of_nil.
  - by eapply step_roomMembersRegistered.
Qed.
